(** * TDFInterface: column resolution, validation and code generation

    A shallow embedding of [tree/treeplayer/src/TDFInterface.cxx]
    (namespace [ROOT::Internal::TDF]) and the properties of its functions.

    Conventions of the embedding:
    - [std::string] and [std::string_view] are [string];
      [std::vector<T>] is [list T], [emplace_back] appends at the end and
      [v[i] = x] is the list update [<[i:=x]> v];
    - [std::map<std::string, T>] is [gmap string T], [find] is the lookup;
    - a pointer that may be null is an [option]; [v[i]] read at a valid
      index is the total lookup [v !!! i];
    - [throw std::runtime_error(msg)] is the result [Throw (runtime_error msg)];
    - the size of a vector, an index into it and a requested number of
      columns are [nat];
    - the [unsigned int] counter of the synthesized scopes is a [Z] in the
      range [0 .. 2^32 - 1], incremented modulo [2^32];
    - a [std::stringstream] is a buffer with a put position and a fail
      flag. *)

From Stdlib Require Import ZArith NArith Ascii String.
From Stdlib Require Import DecimalString DecimalN HexadecimalString.
From stdpp Require Import gmap strings list.

Local Open Scope nat_scope.

(** Appending to a string literal computes. *)
#[local] Arguments String.append !s1 s2 : simpl nomatch.

(** ** Exceptions *)

Inductive exception : Type :=
| runtime_error (what : string).

Definition what (e : exception) : string :=
  match e with runtime_error msg => msg end.

Inductive result (A : Type) : Type :=
| Ok (a : A)
| Throw (e : exception).

Arguments Ok {A} a.
Arguments Throw {A} e.

Definition succeeds {A} (r : result A) : Prop := ∃ a, r = Ok a.
Definition throws {A} (r : result A) : Prop := ∃ e, r = Throw e.

(** Sequencing: an exception thrown by the first part skips the rest. *)
#[export] Instance result_ret : MRet result := λ A a, Ok a.
#[export] Instance result_bind : MBind result := λ A B k r,
  match r with
  | Ok a => k a
  | Throw e => Throw e
  end.

(** ** Strings *)

(** The double-quote character, the line feed, and a name between double
    quotes as the generated code spells it. *)
Definition dquote : string := String "034"%char EmptyString.
Definition newline : string := String "010"%char EmptyString.

Definition quoted (s : string) : string := dquote +:+ s +:+ dquote.

(** [s.empty()] *)
Definition empty (s : string) : bool :=
  match s with
  | EmptyString => true
  | String _ _ => false
  end.

(** [s] occurs in [t] as a contiguous piece. *)
Definition includes (t s : string) : Prop :=
  ∃ pre post, t = pre +:+ s +:+ post.

(** [std::find(v.begin(), v.end(), x) != v.end()] *)
Fixpoint found (x : string) (v : list string) : bool :=
  match v with
  | [] => false
  | y :: v' => if String.eqb y x then true else found x v'
  end.

(** ** AtLeastOneEmptyString *)

Fixpoint AtLeastOneEmptyString (strings : list string) : bool :=
  match strings with
  | [] => false
  | s :: strings' => if empty s then true else AtLeastOneEmptyString strings'
  end.

(** ** FindUndefinedDSColumns *)

(** The body of the loop: [mustBeDefined[i] = std::find(...) == end]. *)
Definition FindUndefinedDSColumns_step (requestedCols definedCols : list string)
    (mustBeDefined : list bool) (i : nat) : list bool :=
  <[i := negb (found (requestedCols !!! i) definedCols)]> mustBeDefined.

Definition FindUndefinedDSColumns (requestedCols definedCols : list string) : list bool :=
  let nColumns := length requestedCols in
  let mustBeDefined := replicate nColumns false in
  foldl (FindUndefinedDSColumns_step requestedCols definedCols)
        mustBeDefined (seq 0 nColumns).


(** ** FindUsedColumnNames *)

Definition regexBit : string := "[^a-zA-Z0-9_]".

Section FindUsedColumnNames.
(** [TRegexp(pattern).Index(text, &len)]: the position of the first match
    of the pattern in the text, or [-1] when there is none.  The class
    [TRegexp] is not part of this file and stays a parameter here. *)
Variable Index : string → string → Z.

(** The test shared by the three loops: build the pattern around the name
    and look for it in the padded expression. *)
Definition nameMatches (paddedExpr brName : string) : bool :=
  let bNameRegexContent := regexBit +:+ brName +:+ regexBit in
  negb (Z.eqb (-1) (Index bNameRegexContent paddedExpr)).

(** Body of the loops over the custom columns and over the tree branches. *)
Definition addIfMatches (paddedExpr : string)
    (usedBranches : list string) (brName : string) : list string :=
  if nameMatches paddedExpr brName then usedBranches ++ [brName]
  else usedBranches.

(** Body of the loop over the data-source columns. *)
Definition addIfMatchesAndNew (paddedExpr : string)
    (usedBranches : list string) (col : string) : list string :=
  if nameMatches paddedExpr col then
    if negb (found col usedBranches) then usedBranches ++ [col]
    else usedBranches
  else usedBranches.

(** [branches] is the array of the tree branches, given by their names
    ([bro->GetName()]); [None] is the null pointer. *)
Definition FindUsedColumnNames (expression : string)
    (branches : option (list string))
    (customColumns dsColumns : list string) : list string :=
  let paddedExpr := " " +:+ expression +:+ " " in
  let usedBranches := [] in
  let usedBranches := foldl (addIfMatches paddedExpr) usedBranches customColumns in
  let usedBranches :=
    match branches with
    | Some brs => foldl (addIfMatches paddedExpr) usedBranches brs
    | None => usedBranches
    end in
  let usedBranches := foldl (addIfMatchesAndNew paddedExpr) usedBranches dsColumns in
  usedBranches.

(** The data-source names that the third loop adds to [usedBranches]. *)
Fixpoint newFromDs (paddedExpr : string) (usedBranches dsColumns : list string)
    : list string :=
  match dsColumns with
  | [] => []
  | col :: rest =>
      if nameMatches paddedExpr col && negb (found col usedBranches)
      then col :: newFromDs paddedExpr (usedBranches ++ [col]) rest
      else newFromDs paddedExpr usedBranches rest
  end.
End FindUsedColumnNames.

(** The names of the branches of a tree pointer or branch-array pointer. *)
Definition branchNames (branches : option (list string)) : list string :=
  match branches with
  | Some brs => brs
  | None => []
  end.

(** *** The matching primitive *)

(** The characters of the class [a-zA-Z0-9_]. *)
Definition isIdentChar (c : ascii) : bool :=
  let n := N_of_ascii c in
  ((97 <=? n) && (n <=? 122) || (65 <=? n) && (n <=? 90)
   || (48 <=? n) && (n <=? 57) || (n =? 95))%N.

(** Modelled from the spec: the text-to-token matching primitive, class
    [TRegexp] with its method [Index], which this file only calls.  The spec
    describes it as token matching via pattern text, with edge cases around
    names that contain pattern metacharacters: the text handed to the
    constructor is a regular expression, and a name pasted into it is read
    as such.  The definitions below follow the regular expressions of that
    class (ROOT, [core/base]: [TRegexp] over [Makepat] and [Matchs]):
    a pattern is compiled into a sequence of elements, and the text is
    matched against the sequence at every position from the left.
    - Both the pattern and the text arrive as C strings ([c_str()]): they
      end at their first NUL character.
    - An element is a character, any character but the line feed (the
      dot), a character class (brackets), or the end of the text (a dollar
      sign in last position); a caret in first position anchors the
      pattern at the start of the text.
    - A question mark, a star or a plus sign applies to the element before
      it: zero or one, any number, at least one.
    - A backslash starts an escape sequence.
    - A pattern that cannot be compiled matches nowhere.
    Characters are read as unsigned, [0 .. 255]. *)
Definition NUL : ascii := "000"%char.

(** [std::string::c_str()] read as a C string. *)
Fixpoint c_str (s : string) : string :=
  match s with
  | EmptyString => EmptyString
  | String c s' => if Ascii.eqb c NUL then EmptyString else String c (c_str s')
  end.

(** The elements of a compiled pattern; the map of a class is a bit set
    over the 256 characters. *)
Inductive element : Type :=
| kChar (c : ascii)
| kAny
| kCcl (map : N)
| kEol.

Inductive closure : Type := kOnce | kOpt | kClose | kPclose.

Record Pattern : Type := {
  bol : bool;
  elements : list (closure * element);
}.

(** The cells that the map of a class takes in the compiled pattern, and
    the cells of a compiled pattern. *)
Definition MAPSIZE : N := 16.
Definition fgMaxpat : N := 2048.

Definition toChar (n : N) : ascii := ascii_of_N (n mod 256).

Definition toupper (c : ascii) : ascii :=
  if ((97 <=? N_of_ascii c) && (N_of_ascii c <=? 122))%N
  then toChar (N_of_ascii c - 32) else c.

Definition isOctDigit (c : ascii) : bool :=
  ((48 <=? N_of_ascii c) && (N_of_ascii c <=? 55))%N.

Definition isDigit (c : ascii) : bool :=
  ((48 <=? N_of_ascii c) && (N_of_ascii c <=? 57))%N.

Definition isHexDigit (c : ascii) : bool :=
  isDigit c
  || ((65 <=? N_of_ascii (toupper c)) && (N_of_ascii (toupper c) <=? 70))%N.

Definition oct2bin (c : ascii) : N := (N_of_ascii c mod 8)%N.

Definition hex2bin (c : ascii) : N :=
  ((if isDigit c then N_of_ascii c - 48
    else N_of_ascii (toupper c) - 65 + 10) mod 16)%N.

(** The character under a [const char*] (NUL at the end) and the pointer
    moved by one. *)
Definition peek (s : string) : ascii :=
  match s with
  | String c _ => c
  | EmptyString => NUL
  end.

Definition advance (s : string) : string :=
  match s with
  | String _ s' => s'
  | EmptyString => EmptyString
  end.

(** Up to [n] more digits of a number in an escape sequence. *)
Fixpoint digits (isDig : ascii → bool) (bin : ascii → N) (base : N) (n : nat)
    (rval : N) (s : string) : N * string :=
  match n with
  | 0 => (rval, s)
  | S n' =>
      if isDig (peek s)
      then digits isDig bin base n' (rval * base + bin (peek s))%N (advance s)
      else (rval, s)
  end.

(** [esc]: the character at the head of [s], an escape sequence read as
    the character it names; and the rest of [s]. *)
Definition esc (s : string) : ascii * string :=
  if negb (Ascii.eqb (peek s) "\") then (peek s, advance s)
  else
    let s := advance s in
    let c := toupper (peek s) in
    if Ascii.eqb c NUL then ("\"%char, s)
    else if Ascii.eqb c "B" then ("008"%char, advance s)
    else if Ascii.eqb c "F" then ("012"%char, advance s)
    else if Ascii.eqb c "N" then ("010"%char, advance s)
    else if Ascii.eqb c "R" then ("013"%char, advance s)
    else if Ascii.eqb c "S" then (" "%char, advance s)
    else if Ascii.eqb c "T" then ("009"%char, advance s)
    else if Ascii.eqb c "E" then ("027"%char, advance s)
    else if Ascii.eqb c "^" then
      (toChar (N_of_ascii (toupper (peek (advance s))) + 256 - 64),
       advance (advance s))
    else if Ascii.eqb c "X" then
      let '(rval, s) := digits isHexDigit hex2bin 16 2 0%N (advance s) in
      (toChar rval, s)
    else if isOctDigit (peek s) then
      let s := advance s in
      let '(rval, s) :=
        digits isOctDigit oct2bin 8 2 (oct2bin (peek s)) (advance s) in
      (toChar rval, s)
    else (peek s, advance s).

Definition SETBIT (c : ascii) (map : N) : N := N.setbit map (N_of_ascii c).
Definition TSTBIT (c : ascii) (map : N) : bool := N.testbit map (N_of_ascii c).

(** The characters after [first], [count] of them, added to a map. *)
Fixpoint setRange (count : nat) (first : N) (map : N) : N :=
  match count with
  | 0 => map
  | S count' => setRange count' (first + 1)%N (N.setbit map (first + 1))
  end.

(** The last character of the piece of [src] that was read to reach
    [src']. *)
Definition lastRead (src src' : string) : ascii :=
  match String.get (String.length src - String.length src' - 1) src with
  | Some c => c
  | None => NUL
  end.

(** The loop of [doccl] over the characters of a class, up to the closing
    bracket: a character, a dash at the start, or a range from the
    character before the dash ([before]) to the one after it. *)
Fixpoint doccl_loop (fuel : nat) (src : string) (atStart : bool) (before : ascii)
    (map : N) : N * string :=
  match fuel with
  | 0 => (map, src)
  | S fuel' =>
      match src with
      | EmptyString => (map, src)
      | String c rest =>
          if Ascii.eqb c "]" then (map, src)
          else if negb (Ascii.eqb c "-") then
            let '(first, src') := esc src in
            let map := SETBIT first map in
            if Ascii.eqb c "[" && Ascii.eqb (peek src') "]" then
              doccl_loop fuel' (advance src') false "]" (SETBIT "]" map)
            else
              doccl_loop fuel' src' false
                (if Ascii.eqb c "\" then lastRead src src' else c) map
          else if atStart then
            doccl_loop fuel' rest false c (SETBIT "-" map)
          else
            let hi := peek rest in
            let first := N.min (N_of_ascii hi) (N_of_ascii before) in
            let last := N.max (N_of_ascii hi) (N_of_ascii before) in
            doccl_loop fuel' (advance rest) false hi
              (setRange (N.to_nat (last - first)) first map)
      end
  end.

(** [doccl]: the map of the class that starts at the bracket at the head
    of [src], and the rest of [src] from the closing bracket on.  A caret
    after the opening bracket inverts the map. *)
Definition doccl (src : string) : N * string :=
  let src := advance src in
  let negative := Ascii.eqb (peek src) "^" in
  let src := if negative then advance src else src in
  let '(map, src) := doccl_loop (String.length src) src true NUL 0%N in
  (if negative then N.lxor map (N.ones 256) else map, src).

(** A closure is put on the last element; there must be one, and it must
    be neither the end of the text nor under a closure already. *)
Definition withClosure (cl : closure) (pat : list (closure * element))
    : option (list (closure * element)) :=
  match reverse pat with
  | (kOnce, kEol) :: _ => None
  | (kOnce, el) :: before => Some (reverse before ++ [(cl, el)])
  | _ => None
  end.

(** The loop of [Makepat] over the expression; [size] counts the cells
    used so far, [None] is a pattern that does not compile. *)
Fixpoint Makepat_loop (fuel : nat) (exp : string) (b : bool)
    (pat : list (closure * element)) (size : N) {struct fuel} : option Pattern :=
  match fuel with
  | 0 => None
  | S fuel' =>
      match exp with
      | EmptyString => Some {| bol := b; elements := pat |}
      | String c rest =>
          if (fgMaxpat - 1 <=? size)%N then None
          else if Ascii.eqb c "." then
            Makepat_loop fuel' rest b (pat ++ [(kOnce, kAny)]) (size + 1)%N
          else if Ascii.eqb c "^" then
            if (size =? 0)%N then Makepat_loop fuel' rest true pat (size + 1)%N
            else Makepat_loop fuel' rest b (pat ++ [(kOnce, kChar c)]) (size + 1)%N
          else if Ascii.eqb c "$" then
            Makepat_loop fuel' rest b
              (pat ++ [(kOnce, if empty rest then kEol else kChar c)]) (size + 1)%N
          else if Ascii.eqb c "[" then
            if (fgMaxpat <=? size + MAPSIZE)%N then None
            else
              let '(map, src) := doccl exp in
              if Ascii.eqb (peek src) "]"
              then Makepat_loop fuel' (advance src) b (pat ++ [(kOnce, kCcl map)])
                     (size + 1 + MAPSIZE)%N
              else None
          else if Ascii.eqb c "?" || Ascii.eqb c "*" || Ascii.eqb c "+" then
            pat' ← withClosure (if Ascii.eqb c "?" then kOpt
                                else if Ascii.eqb c "+" then kPclose else kClose) pat;
            Makepat_loop fuel' rest b pat' (size + 1)%N
          else
            let '(ch, exp') := esc exp in
            Makepat_loop fuel' exp' b (pat ++ [(kOnce, kChar ch)]) (size + 1)%N
      end
  end.

(** [Makepat]: the compiled pattern; the empty expression does not
    compile.  Every step of the loop reads at least one character. *)
Definition Makepat (exp : string) : option Pattern :=
  if empty exp then None
  else Makepat_loop (S (String.length exp)) exp false [] 0%N.

(** The characters that an element accepts. *)
Definition accepts (el : element) (c : ascii) : bool :=
  match el with
  | kChar a => Ascii.eqb c a
  | kAny => negb (Ascii.eqb c "010")
  | kCcl map => TSTBIT c map
  | kEol => false
  end.

(** [omatch]: one element against the head of the text; the rest of the
    text after a match.  At the end of the text only the end-of-text
    element and the dot match, and they read nothing. *)
Definition omatch (el : element) (str : string) : option string :=
  match str with
  | EmptyString =>
      match el with
      | kEol | kAny => Some str
      | _ => None
      end
  | String c rest => if accepts el c then Some rest else None
  end.

(** The ends of the runs of an element from the head of the text, the
    longest first. *)
Fixpoint closureEnds (el : element) (str : string) : list string :=
  match str with
  | EmptyString => [str]
  | String c rest => if accepts el c then closureEnds el rest ++ [str] else [str]
  end.

Fixpoint firstEnd (rest : string → option string) (ends : list string) : option string :=
  match ends with
  | [] => None
  | str :: ends' =>
      match rest str with
      | Some e => Some e
      | None => firstEnd rest ends'
      end
  end.

(** [patcmp]: the pattern against the head of the text; the rest of the
    text after a match.  A star or a plus sign takes the longest run and
    gives characters back while the rest of the pattern fails; a question
    mark does not give back. *)
Fixpoint patcmp (pat : list (closure * element)) (str : string) : option string :=
  match pat with
  | [] => Some str
  | (kOnce, el) :: pat' =>
      match omatch el str with
      | Some str' => patcmp pat' str'
      | None => None
      end
  | (kOpt, el) :: pat' =>
      patcmp pat' (match omatch el str with Some str' => str' | None => str end)
  | (kClose, el) :: pat' => firstEnd (patcmp pat') (closureEnds el str)
  | (kPclose, el) :: pat' =>
      match omatch el str with
      | Some str' => firstEnd (patcmp pat') (closureEnds el str')
      | None => None
      end
  end.

(** The first position from [pos] on at which the pattern matches. *)
Fixpoint scan (pat : list (closure * element)) (str : string) (pos : Z) : Z :=
  match patcmp pat str with
  | Some _ => pos
  | None =>
      match str with
      | EmptyString => (-1)%Z
      | String _ rest => scan pat rest (pos + 1)%Z
      end
  end.

(** [Matchs]: an anchored pattern is tried at the start of the text only. *)
Definition Matchs (pat : Pattern) (str : string) : Z :=
  if bol pat then
    match patcmp (elements pat) str with
    | Some _ => 0%Z
    | None => (-1)%Z
    end
  else scan (elements pat) str 0.

(** [TRegexp(pattern).Index(text, &len)]: the position of the first match,
    or [-1]. *)
Definition TRegexp_Index (pattern text : string) : Z :=
  match Makepat (c_str pattern) with
  | Some pat => Matchs pat (c_str text)
  | None => (-1)%Z
  end.

(** *** Names without metacharacters *)







(** The same search written on the text directly: [text] starts with
    [name] followed by a character outside the class; and the first
    position of a character outside the class that is followed by such a
    text. *)
Fixpoint token_here (name text : string) : bool :=
  match name with
  | EmptyString =>
      match text with
      | String c _ => negb (isIdentChar c)
      | EmptyString => false
      end
  | String a name' =>
      match text with
      | String c text' => Ascii.eqb a c && token_here name' text'
      | EmptyString => false
      end
  end.

Fixpoint token_index (name text : string) (pos : Z) : Z :=
  match text with
  | EmptyString => (-1)%Z
  | String c rest =>
      if negb (isIdentChar c) && token_here name rest then pos
      else token_index name rest (pos + 1)%Z
  end.

(** In the words of the spec: the name is textually present in the
    expression and is delimited, on each side, by a non-identifier character
    or by the end of the expression. *)
Definition freeAtStart (after : string) : Prop :=
  ∀ c rest, after = String c rest → isIdentChar c = false.

Definition freeAtEnd (before : string) : Prop :=
  ∀ rest c, before = rest +:+ String c EmptyString → isIdentChar c = false.

Definition isolatedToken (name expression : string) : Prop :=
  ∃ before after,
    expression = before +:+ name +:+ after
    ∧ freeAtEnd before ∧ freeAtStart after.

(** The names of a list that the expression matches, in the order of the
    list. *)
Definition matching (Index : string → string → Z) (expression : string)
    (names : list string) : list string :=
  filter (λ n, nameMatches Index (" " +:+ expression +:+ " ") n = true) names.

(** ** The framework around this file *)

(** The classes and functions of the framework that this file uses and
    that are declared elsewhere.  A pointer value is its address. *)
Class Framework : Type := {
  TTree : Type;
  TDataSource : Type;
  TCustomColumnBase : Type;
  type_info : Type;
  (** [tree->GetBranch(name) != nullptr] *)
  HasBranch : TTree → string → bool;
  (** [ds->GetColumnNames()] *)
  GetColumnNames : TDataSource → list string;
  (** The declared type of a column, looked up in the custom column, the
      tree and the data source. *)
  ColumnName2ColumnTypeName :
    string → option TTree → option TCustomColumnBase → option TDataSource →
    result string;
  (** [TClass::GetClass(ti)] followed by [GetName()]; [None] is null. *)
  TClass_GetClass : type_info → option string;
  (** A [void*] written to a stream. *)
  show_pointer : Z → string;
  (** [TRegexp(pattern).Index(text, &len)] *)
  Regexp_Index : string → string → Z;
}.

(** Numbers written to a stream in decimal. *)
Definition show_unsigned (n : Z) : string :=
  DecimalString.NilEmpty.string_of_uint (N.to_uint (Z.to_N n)).

Definition show_int (n : Z) : string :=
  DecimalString.NilEmpty.string_of_int (Z.to_int n).

(** ** String streams *)

Fixpoint str_take (n : nat) (s : string) : string :=
  match n, s with
  | S n', String c s' => String c (str_take n' s')
  | _, _ => EmptyString
  end.

Fixpoint str_drop (n : nat) (s : string) : string :=
  match n, s with
  | S n', String _ s' => str_drop n' s'
  | _, _ => s
  end.

Record stringstream : Type := {
  str : string;      (** the buffer, [ss.str()] *)
  tellp : nat;       (** the put position *)
  fail : bool;       (** set by a failed operation; later output is dropped *)
}.

Definition stringstream_new : stringstream :=
  {| str := EmptyString; tellp := 0; fail := false |}.

(** [ss.str(s)] *)
Definition set_str (ss : stringstream) (s : string) : stringstream :=
  {| str := s; tellp := 0; fail := fail ss |}.

(** [ss << s]: the characters are written at the put position, over what
    the buffer holds there. *)
Definition put (ss : stringstream) (s : string) : stringstream :=
  if fail ss then ss
  else {| str := str_take (tellp ss) (str ss) +:+ s
                 +:+ str_drop (tellp ss + String.length s) (str ss);
          tellp := tellp ss + String.length s;
          fail := false |}.

(** [ss.seekp(off, ss.cur)] *)
Definition seekp_cur (ss : stringstream) (off : Z) : stringstream :=
  if fail ss then ss
  else
    let p := (Z.of_nat (tellp ss) + off)%Z in
    if ((0 <=? p) && (p <=? Z.of_nat (String.length (str ss))))%Z
    then {| str := str ss; tellp := Z.to_nat p; fail := false |}
    else {| str := str ss; tellp := tellp ss; fail := true |}.

(** The put position is at the end of the buffer and nothing failed: what
    is written next is appended. *)
Definition atEnd (ss : stringstream) : Prop :=
  fail ss = false ∧ tellp ss = String.length (str ss).

Declare Scope stream_scope.
Delimit Scope stream_scope with stream.
Notation "ss << s" := (put ss s) (at level 50, left associativity) : stream_scope.
Local Open Scope stream_scope.

(** ** GetValidatedColumnNames *)

Section Validation.
Context {FW : Framework}.

Record TLoopManager : Type := {
  GetDefaultColumnNames : list string;
  GetTree : option TTree;
}.

(** Modelled from the spec: the function [SelectColumns], which this file
    calls and which is defined elsewhere.  If the supplied names are not
    empty their number must equal the requested count, else it fails
    (ColumnCountMismatch); if they are empty it takes the first
    [nRequiredNames] entries of the default column list and fails if that
    list is shorter. *)
Definition SelectColumns (nRequiredNames : nat) (names defaultNames : list string)
    : result (list string) :=
  match names with
  | [] =>
      if length defaultNames <? nRequiredNames
      then Throw (runtime_error "ColumnCountMismatch")
      else Ok (take nRequiredNames defaultNames)
  | _ :: _ =>
      if length names =? nRequiredNames then Ok names
      else Throw (runtime_error "ColumnCountMismatch")
  end.

(** A name exists in the union of the dataset-native, custom and
    data-source columns. *)
Definition isKnownColumn (tree : option TTree)
    (definedCols dataSourceColumns : list string) (column : string) : bool :=
  match tree with
  | Some t => HasBranch t column
  | None => false
  end
  || found column definedCols || found column dataSourceColumns.

(** Modelled from the spec: the function [FindUnknownColumns], which this
    file calls and which is defined elsewhere.  Every selected name must
    exist in the union of the dataset-native, custom and data-source
    columns; the unknown-column detection enumerates every unknown name
    exactly once. *)
Definition FindUnknownColumns (requiredCols : list string) (tree : option TTree)
    (definedCols dataSourceColumns : list string) : list string :=
  foldl (λ unknownColumns column,
           if isKnownColumn tree definedCols dataSourceColumns column
              || found column unknownColumns
           then unknownColumns
           else unknownColumns ++ [column])
        [] requiredCols.

(** One turn of the loop that writes the unknown names: the stream and
    the delimiter for the next name. *)
Definition writeUnknown (acc : stringstream * string) (unknown : string)
    : stringstream * string :=
  let '(unknowns, delim) := acc in
  (unknowns << delim << unknown, ",").

Definition GetValidatedColumnNames (lm : TLoopManager) (nColumns : nat)
    (columns validCustomColumns : list string) (ds : option TDataSource)
    : result (list string) :=
  let defaultColumns := GetDefaultColumnNames lm in
  selectedColumns ← SelectColumns nColumns columns defaultColumns;
  let unknownColumns :=
    FindUnknownColumns selectedColumns (GetTree lm) validCustomColumns
      (match ds with Some d => GetColumnNames d | None => [] end) in
  match unknownColumns with
  | _ :: _ =>
      let unknowns := stringstream_new in
      let delim := if 1 <? length unknownColumns then "s: " else ": " in
      let '(unknowns, _) := foldl writeUnknown (unknowns, delim) unknownColumns in
      Throw (runtime_error ("Unknown column" +:+ str unknowns))
  | [] => Ok selectedColumns
  end.
End Validation.

(** ** A sample framework *)

(** A small instance of the framework, for running the functions on
    examples: a tree and a data source are the lists of their column names,
    every column has type double, a type identity is registered under its
    own name when that name is not empty, pointers are written in
    hexadecimal, and patterns are matched by [TRegexp_Index]. *)
Definition sampleFramework : Framework := {|
  TTree := list string;
  TDataSource := list string;
  TCustomColumnBase := unit;
  type_info := string;
  HasBranch := λ t name, found name t;
  GetColumnNames := λ d, d;
  ColumnName2ColumnTypeName := λ _ _ _ _, Ok "double";
  TClass_GetClass := λ ti, if empty ti then None else Some ti;
  show_pointer := λ p,
    "0x" +:+ HexadecimalString.NilEmpty.string_of_uint (N.to_hex_uint (Z.to_N p));
  Regexp_Index := TRegexp_Index;
|}.

(** ** JitBuildAndBook *)

(** [v.empty()] *)
Definition vector_empty {A} (v : list A) : bool :=
  match v with
  | [] => true
  | _ :: _ => false
  end.

Section JitBuildAndBook.
Context {FW : Framework}.

(** First loop: the pointer to the custom column of [bl[i]], if any. *)
Definition findTmpBranch (bl : list string)
    (customColumns : gmap string TCustomColumnBase)
    (tmpBranchPtrs : list (option TCustomColumnBase)) (i : nat)
    : list (option TCustomColumnBase) :=
  match customColumns !! (bl !!! i) with
  | Some tmpBranch => <[i := Some tmpBranch]> tmpBranchPtrs
  | None => tmpBranchPtrs
  end.

(** Second loop, over the indices that are left: the type name of each
    column; an empty type name is an error. *)
Fixpoint guessColumnTypes (bl : list string) (tree : option TTree)
    (tmpBranchPtrs : list (option TCustomColumnBase)) (ds : option TDataSource)
    (indices : list nat) (columnTypeNames : list string) : result (list string) :=
  match indices with
  | [] => Ok columnTypeNames
  | i :: indices' =>
      columnTypeName ←
        ColumnName2ColumnTypeName (bl !!! i) tree (tmpBranchPtrs !!! i) ds;
      if empty columnTypeName then
        let exceptionText := "The type of column " in
        let exceptionText := exceptionText +:+ bl !!! i in
        let exceptionText :=
          exceptionText +:+ " could not be guessed. Please specify one." in
        Throw (runtime_error exceptionText)
      else
        guessColumnTypes bl tree tmpBranchPtrs ds indices'
          (<[i := columnTypeName]> columnTypeNames)
  end.

Definition writeColumnType (createAction_str : stringstream) (colType : string)
    : stringstream :=
  createAction_str << ", " << colType.

Definition writeColumnName (bl : list string) (createAction_str : stringstream)
    (i : nat) : stringstream :=
  let createAction_str :=
    if negb (i =? 0) then createAction_str << ", " else createAction_str in
  createAction_str << dquote << bl !!! i << dquote.

Definition JitBuildAndBook (bl : list string) (prevNodeTypename : string)
    (prevNode : Z) (art at_ : type_info) (rOnHeap : Z) (tree : option TTree)
    (nSlots : Z) (customColumns : gmap string TCustomColumnBase)
    (ds : option TDataSource) : result string :=
  let nBranches := length bl in
  let tmpBranchPtrs :=
    foldl (findTmpBranch bl customColumns)
          (replicate nBranches None) (seq 0 nBranches) in
  columnTypeNames ←
    guessColumnTypes bl tree tmpBranchPtrs ds (seq 0 nBranches)
      (replicate nBranches EmptyString);
  match TClass_GetClass art with
  | None =>
      Throw (runtime_error
               "An error occurred while inferring the result type of an operation.")
  | Some actionResultTypeName =>
      match TClass_GetClass at_ with
      | None =>
          Throw (runtime_error
                   "An error occurred while inferring the action type of the operation.")
      | Some actionTypeName =>
          let createAction_str := stringstream_new in
          let createAction_str :=
            createAction_str << "ROOT::Internal::TDF::CallBuildAndBook"
                             << "<" << actionTypeName in
          let createAction_str :=
            foldl writeColumnType createAction_str columnTypeNames in
          let createAction_str :=
            createAction_str << ">(*reinterpret_cast<" << prevNodeTypename
                             << "*>(" << show_pointer prevNode << "), {" in
          let createAction_str :=
            foldl (writeColumnName bl) createAction_str (seq 0 (length bl)) in
          let createAction_str :=
            createAction_str << "}, " << show_unsigned nSlots
                             << ", reinterpret_cast<" << actionResultTypeName
                             << "*>(" << show_pointer rOnHeap << "));" in
          Ok (str createAction_str)
      end
  end.

(** The generated text read as a call: a function, its type arguments and
    its arguments, each list separated by a comma and a space. *)
Definition callExpression (function : string) (typeArgs args : list string)
    : string :=
  function +:+ "<" +:+ String.concat ", " typeArgs +:+ ">("
  +:+ String.concat ", " args +:+ ");".

Definition buildAndBookCall (actionTypeName : string)
    (columnTypeNames : list string) (prevNodeTypename : string) (prevNode : Z)
    (bl : list string) (nSlots : Z) (actionResultTypeName : string)
    (rOnHeap : Z) : string :=
  callExpression "ROOT::Internal::TDF::CallBuildAndBook"
    (actionTypeName :: columnTypeNames)
    [ "*reinterpret_cast<" +:+ prevNodeTypename +:+ "*>("
        +:+ show_pointer prevNode +:+ ")";
      "{" +:+ String.concat ", " (quoted <$> bl) +:+ "}";
      show_unsigned nSlots;
      "reinterpret_cast<" +:+ actionResultTypeName +:+ "*>("
        +:+ show_pointer rOnHeap +:+ ")" ].
End JitBuildAndBook.

(** Every string of a list with a separator before it. *)
Definition prefixAll (sep : string) (l : list string) : string :=
  foldr (λ x rest, sep +:+ x +:+ rest) EmptyString l.

(** ** JitTransformation *)

(** The interpreter behind [gInterpreter].  It has a state of its own; each
    of the three entry points used here takes a source text, changes that
    state and answers.  An error code is the integer of the enumerator. *)
Class Interpreter : Type := {
  TInterpreter : Type;
  kNoError : Z;
  (** [ProcessLine(line, &interpErrCode)]: the error code. *)
  ProcessLine : string → TInterpreter → Z * TInterpreter;
  (** [Declare(src)]: whether the declaration compiled. *)
  TInterpreter_Declare : string → TInterpreter → bool * TInterpreter;
  (** [Calc(line, &interpErrCode)]: the value and the error code. *)
  Calc : string → TInterpreter → (Z * Z) * TInterpreter;
}.

(** What was submitted to the interpreter, with its answer. *)
Inductive submission : Type :=
| SubmittedProcessLine (line : string) (interpErrCode : Z)
| SubmittedDeclare (src : string) (ok : bool)
| SubmittedCalc (line : string) (retVal interpErrCode : Z).

Definition isCalc (s : submission) : Prop :=
  match s with
  | SubmittedCalc _ _ _ => True
  | _ => False
  end.


Section JitTransformation.
Context {FW : Framework} {IP : Interpreter}.

(** The state that an invocation reads and changes: the static counter
    [iNs], the interpreter, and two records kept for the statements below:
    the scope names synthesized so far and the submissions made so far. *)
Record World : Type := {
  iNs : Z;
  gInterpreter : TInterpreter;
  scopes : list string;
  submitted : list submission;
}.

(** A computation that reads and changes the world and returns or throws. *)
Definition M (A : Type) : Type := World → result A * World.

#[export] Instance M_ret : MRet M := λ A a w, (Ok a, w).
#[export] Instance M_bind : MBind M := λ A B k m w,
  match m w with
  | (Ok a, w') => k a w'
  | (Throw e, w') => (Throw e, w')
  end.

Definition throw {A} (e : exception) : M A := λ w, (Throw e, w).

Definition liftResult {A} (r : result A) : M A := λ w, (r, w).

(** [ss << "__tdf_" << iNs++; nsName = ss.str()]: the scope name is made
    from the counter, which is then incremented as an [unsigned int]. *)
Definition synthesizeScopeName (ss : stringstream) : M (string * stringstream) :=
  λ w,
    let ss := ss << "__tdf_" << show_unsigned (iNs w) in
    let nsName := str ss in
    (Ok (nsName, ss),
     {| iNs := (iNs w + 1) mod 2 ^ 32;
        gInterpreter := gInterpreter w;
        scopes := scopes w ++ [nsName];
        submitted := submitted w |}).

Definition gInterpreter_ProcessLine (line : string) : M Z := λ w,
  let '(interpErrCode, interp) := ProcessLine line (gInterpreter w) in
  (Ok interpErrCode,
   {| iNs := iNs w; gInterpreter := interp; scopes := scopes w;
      submitted := submitted w ++ [SubmittedProcessLine line interpErrCode] |}).

Definition gInterpreter_Declare (src : string) : M bool := λ w,
  let '(ok, interp) := TInterpreter_Declare src (gInterpreter w) in
  (Ok ok,
   {| iNs := iNs w; gInterpreter := interp; scopes := scopes w;
      submitted := submitted w ++ [SubmittedDeclare src ok] |}).

Definition gInterpreter_Calc (line : string) : M (Z * Z) := λ w,
  let '((retVal, interpErrCode), interp) := Calc line (gInterpreter w) in
  (Ok (retVal, interpErrCode),
   {| iNs := iNs w; gInterpreter := interp; scopes := scopes w;
      submitted := submitted w ++ [SubmittedCalc line retVal interpErrCode] |}).

(** The loop over [usedBranches] that declares one variable per column. *)
Fixpoint declareVariables (usedBranches : list string)
    (tmpBookedBranches : gmap string TCustomColumnBase) (tree : option TTree)
    (ds : option TDataSource) (ss : stringstream) (usedBranchesTypes : list string)
    : result (stringstream * list string) :=
  match usedBranches with
  | [] => Ok (ss, usedBranchesTypes)
  | brName :: rest =>
      let tmpBr := tmpBookedBranches !! brName in
      brTypeName ← ColumnName2ColumnTypeName brName tree tmpBr ds;
      let ss := ss << brTypeName << " " << brName << (";" +:+ newline) in
      declareVariables rest tmpBookedBranches tree ds ss
        (usedBranchesTypes ++ [brTypeName])
  end.

(** The block under [if (exprNeedsVariables)]. *)
Definition declarationStep (nsName : string) (usedBranches : list string)
    (tmpBookedBranches : gmap string TCustomColumnBase) (tree : option TTree)
    (ds : option TDataSource) (ss : stringstream) (usedBranchesTypes : list string)
    : M (stringstream * list string) :=
  let ss := ss << "namespace " << nsName in
  let ss := ss << (" {" +:+ newline) in
  '(ss, usedBranchesTypes) ←
    liftResult (declareVariables usedBranches tmpBookedBranches tree ds ss
                  usedBranchesTypes);
  let ss := ss << "}" in
  let variableDeclarations := str ss in
  let ss := set_str ss EmptyString in
  interpErrCode ← gInterpreter_ProcessLine variableDeclarations;
  if negb (kNoError =? interpErrCode)%Z then
    let msg := "Cannot declare these variables:  " in
    let msg := msg +:+ variableDeclarations in
    let msg :=
      msg +:+ (newline +:+ "Interpreter error code is "
               +:+ show_int interpErrCode +:+ ".") in
    throw (runtime_error msg)
  else mret (ss, usedBranchesTypes).

(** The declaration of the expression alone, to check that it compiles. *)
Definition validationStep (nsName expression : string) (ss : stringstream)
    : M stringstream :=
  let ss :=
    ss << "namespace " << nsName << "{ auto res = " << expression
       << (";}" +:+ newline) in
  ok ← gInterpreter_Declare (str ss);
  if negb ok then
    let msg := "Cannot interpret this expression: " in
    let msg := msg +:+ " " in
    let msg := msg +:+ str ss in
    throw (runtime_error msg)
  else mret ss.

Definition writeParameter (usedBranchesTypes usedBranches : list string)
    (ss : stringstream) (i : nat) : stringstream :=
  ss << usedBranchesTypes !!! i << "& " << usedBranches !!! i << ", ".

(** The lambda that evaluates the expression. *)
Definition buildLambda (usedBranchesTypes usedBranches : list string)
    (expression : string) (ss : stringstream) : stringstream :=
  let ss := set_str ss EmptyString in
  let ss := ss << "[](" in
  let ss :=
    foldl (writeParameter usedBranchesTypes usedBranches) ss
          (seq 0 (length usedBranchesTypes)) in
  let ss :=
    if negb (vector_empty usedBranchesTypes) then seekp_cur ss (-2) else ss in
  ss << "){ return " << expression << ";}".

Definition writeUsedBranch (ss : stringstream) (brName : string) : stringstream :=
  ss << dquote << brName << (dquote +:+ ", ").

(** The call of [Define] or [Filter] on the current node. *)
Definition buildInvocation (thisPtr : Z)
    (methodName interfaceTypeName name filterLambda returnTypeName : string)
    (usedBranches : list string) (exprNeedsVariables : bool) (ss : stringstream)
    : stringstream :=
  let targetTypeName :=
    "ROOT::Experimental::TDF::TInterface<" +:+ returnTypeName +:+ ">" in
  let ss := set_str ss EmptyString in
  let ss :=
    ss << targetTypeName << "(((" << interfaceTypeName << "*)"
       << show_pointer thisPtr << ")->" << methodName << "(" in
  let ss :=
    if String.eqb methodName "Define"
    then ss << dquote << name << (dquote +:+ ", ")
    else ss in
  let ss := ss << filterLambda << ", {" in
  let ss := foldl writeUsedBranch ss usedBranches in
  let ss := if exprNeedsVariables then seekp_cur ss (-2) else ss in
  let ss := ss << "}" in
  let ss :=
    if String.eqb methodName "Filter"
    then ss << (", " +:+ dquote) << name << dquote
    else ss in
  ss << "));".

(** The submission of the call and the test of its answer. *)
Definition invocationStep (methodName : string) (ss : stringstream) : M Z :=
  '(retVal, interpErrCode) ← gInterpreter_Calc (str ss);
  if negb (kNoError =? interpErrCode)%Z || (retVal =? 0)%Z then
    let msg := "Cannot interpret the invocation to " +:+ methodName +:+ ":  " in
    let msg := msg +:+ str ss in
    let msg :=
      if negb (kNoError =? interpErrCode)%Z
      then msg +:+ (newline +:+ "Interpreter error code is "
                    +:+ show_int interpErrCode +:+ ".")
      else msg in
    throw (runtime_error msg)
  else mret retVal.

Definition JitTransformation (thisPtr : Z)
    (methodName interfaceTypeName name expression : string)
    (branches : option (list string)) (customColumns : list string)
    (tmpBookedBranches : gmap string TCustomColumnBase) (tree : option TTree)
    (returnTypeName : string) (ds : option TDataSource) : M Z :=
  let dsColumns := match ds with Some d => GetColumnNames d | None => [] end in
  let usedBranches :=
    FindUsedColumnNames Regexp_Index expression branches customColumns dsColumns in
  let exprNeedsVariables := negb (vector_empty usedBranches) in
  let usedBranchesTypes := [] in
  let ss := stringstream_new in
  '(nsName, ss) ← synthesizeScopeName ss;
  let ss := set_str ss EmptyString in
  '(ss, usedBranchesTypes) ←
    (if exprNeedsVariables
     then declarationStep nsName usedBranches tmpBookedBranches tree ds ss
            usedBranchesTypes
     else mret (ss, usedBranchesTypes));
  ss ← validationStep nsName expression ss;
  let ss := buildLambda usedBranchesTypes usedBranches expression ss in
  let filterLambda := str ss in
  let ss :=
    buildInvocation thisPtr methodName interfaceTypeName name filterLambda
      returnTypeName usedBranches exprNeedsVariables ss in
  invocationStep methodName ss.

(** A computation that leaves the counter and the synthesized scope names
    alone. *)
Definition keepsCounter {A} (m : M A) : Prop :=
  ∀ w, iNs (m w).2 = iNs w ∧ scopes (m w).2 = scopes w.

(** The arguments of one invocation. *)
Record JitCall : Type := {
  call_thisPtr : Z;
  call_methodName : string;
  call_interfaceTypeName : string;
  call_name : string;
  call_expression : string;
  call_branches : option (list string);
  call_customColumns : list string;
  call_tmpBookedBranches : gmap string TCustomColumnBase;
  call_tree : option TTree;
  call_returnTypeName : string;
  call_ds : option TDataSource;
}.

Definition invoke (c : JitCall) : M Z :=
  JitTransformation (call_thisPtr c) (call_methodName c)
    (call_interfaceTypeName c) (call_name c) (call_expression c)
    (call_branches c) (call_customColumns c) (call_tmpBookedBranches c)
    (call_tree c) (call_returnTypeName c) (call_ds c).

(** The world at the start of the process. *)
Definition initialWorld (interp : TInterpreter) : World :=
  {| iNs := 0; gInterpreter := interp; scopes := []; submitted := [] |}.

(** The world after the first [k] invocations of a sequence. *)
Definition worldAfter (calls : N → JitCall) (w0 : World) (k : N) : World :=
  N.peano_rect (λ _, World) w0 (λ i w, (invoke (calls i) w).2) k.

(** The scope name that the invocation number [k] synthesizes. *)
Definition scopeOfInvocation (calls : N → JitCall) (w0 : World) (k : N)
    : option string :=
  last (scopes (worldAfter calls w0 (N.succ k))).
End JitTransformation.

(** A sample interpreter, for running [JitTransformation] on examples: its
    state is the list of the sources it accepted; it accepts every source
    and the value of a call is a handle that is not null. *)
Definition sampleInterpreter : Interpreter := {|
  TInterpreter := list string;
  kNoError := 0;
  ProcessLine := λ line interp, (0%Z, interp ++ [line]);
  TInterpreter_Declare := λ src interp, (true, interp ++ [src]);
  Calc := λ line interp, ((Z.of_nat (length interp) + 4096, 0)%Z, interp ++ [line]);
|}.

(** An interpreter that rejects every source: [ProcessLine] and [Calc]
    answer the error code 1, [Declare] answers false. *)
Definition rejectingInterpreter : Interpreter := {|
  TInterpreter := unit;
  kNoError := 0;
  ProcessLine := λ _ interp, (1%Z, interp);
  TInterpreter_Declare := λ _ interp, (false, interp);
  Calc := λ _ interp, ((0, 1)%Z, interp);
|}.

(** A filter on the columns x and y of a tree, as a sample invocation. *)
Definition sampleCall (expression : string) : @JitCall sampleFramework :=
  {| call_thisPtr := 8000;
     call_methodName := "Filter";
     call_interfaceTypeName :=
       "ROOT::Experimental::TDF::TInterface<ROOT::Detail::TDF::TLoopManager>";
     call_name := "cut";
     call_expression := expression;
     call_branches := Some ["x"; "y"];
     call_customColumns := [];
     call_tmpBookedBranches := ∅;
     call_tree := Some (["x"; "y"] : @TTree sampleFramework);
     call_returnTypeName := "ROOT::Detail::TDF::TFilterBase";
     call_ds := None |}.


(** The world in which the sample interpreter has accepted nothing yet. *)
Definition sampleWorld : World (IP := sampleInterpreter) :=
  initialWorld (IP := sampleInterpreter) ([] : list string).

(** The submissions that one invocation can make, with its result [r]: a
    type lookup threw before anything was submitted; the declaration of
    the variables was submitted and rejected; the expression was submitted
    (after the variables, if any, were accepted) and rejected; or the
    expression was accepted and the call was submitted. *)
Definition declared (noError : Z) (pre : list submission) : Prop :=
  pre = [] ∨ ∃ decl, pre = [SubmittedProcessLine decl noError].

Inductive protocol (noError : Z) (r : result Z) : list submission → Prop :=
| protocol_types e :
    r = Throw e → protocol noError r []
| protocol_declaration decl code msg :
    code ≠ noError → r = Throw (runtime_error msg) → includes msg decl →
    protocol noError r [SubmittedProcessLine decl code]
| protocol_validation pre src msg :
    declared noError pre → r = Throw (runtime_error msg) → includes msg src →
    protocol noError r (pre ++ [SubmittedDeclare src false])
| protocol_invocation pre src line retVal code :
    declared noError pre →
    protocol noError r
      (pre ++ [SubmittedDeclare src true; SubmittedCalc line retVal code]).



(** ** The generated texts *)

(** The stream holds [before] followed by [after], and the put position is
    between the two. *)
Definition atPos (ss : stringstream) (before after : string) : Prop :=
  fail ss = false ∧ str ss = before +:+ after
  ∧ tellp ss = String.length before.

(** Every string of a list with a separator after it. *)
Definition suffixAll (sep : string) (l : list string) : string :=
  foldr (λ x rest, x +:+ sep +:+ rest) EmptyString l.

(** The strings of a list one after the other. *)
Definition concatAll (l : list string) : string :=
  foldr String.append EmptyString l.

(** The name of the scope number [n]. *)
Definition scopeName (n : Z) : string := "__tdf_" +:+ show_unsigned n.

(** The declaration of one variable per column inside the scope. *)
Definition declarationText (nsName : string) (types names : list string)
    : string :=
  "namespace " +:+ nsName +:+ " {" +:+ newline
  +:+ concatAll (zip_with (λ T n, T +:+ " " +:+ n +:+ ";" +:+ newline) types names)
  +:+ "}".

(** The declaration of the expression alone inside the scope. *)
Definition validationText (nsName expression : string) : string :=
  "namespace " +:+ nsName +:+ "{ auto res = " +:+ expression +:+ ";}"
  +:+ newline.

(** The lambda with one reference parameter per column. *)
Definition lambdaText (types names : list string) (expression : string)
    : string :=
  "[](" +:+ String.concat ", " (zip_with (λ T n, T +:+ "& " +:+ n) types names)
  +:+ "){ return " +:+ expression +:+ ";}".

(** The call of the method on the current node: the new name first for
    Define, the lambda, the quoted column names, the name last for
    Filter. *)
Definition invocationText {FW : Framework} (thisPtr : Z)
    (methodName interfaceTypeName name filterLambda returnTypeName : string)
    (names : list string) : string :=
  "ROOT::Experimental::TDF::TInterface<" +:+ returnTypeName +:+ ">((("
  +:+ interfaceTypeName +:+ "*)" +:+ show_pointer thisPtr +:+ ")->"
  +:+ methodName +:+ "("
  +:+ (if String.eqb methodName "Define" then quoted name +:+ ", "
       else EmptyString)
  +:+ filterLambda +:+ ", {" +:+ String.concat ", " (quoted <$> names) +:+ "}"
  +:+ (if String.eqb methodName "Filter" then ", " +:+ quoted name
       else EmptyString)
  +:+ "));".

(** The messages of the three errors of an invocation. *)
Definition declarationError (decl : string) (interpErrCode : Z) : string :=
  "Cannot declare these variables:  " +:+ decl +:+ newline
  +:+ "Interpreter error code is " +:+ show_int interpErrCode +:+ ".".

Definition validationError (src : string) : string :=
  "Cannot interpret this expression:  " +:+ src.

Definition invocationError {IP : Interpreter} (methodName line : string)
    (interpErrCode : Z) : string :=
  "Cannot interpret the invocation to " +:+ methodName +:+ ":  " +:+ line
  +:+ (if negb (kNoError =? interpErrCode)%Z
       then newline +:+ "Interpreter error code is "
            +:+ show_int interpErrCode +:+ "."
       else EmptyString).

Section Submissions.
Context {FW : Framework} {IP : Interpreter}.

(** The world once a scope name was synthesized. *)
Definition afterScope (w : World) : World :=
  {| iNs := (iNs w + 1) mod 2 ^ 32;
     gInterpreter := gInterpreter w;
     scopes := scopes w ++ [scopeName (iNs w)];
     submitted := submitted w |}.

(** The world once the interpreter answered a submission. *)
Definition answered (w : World) (interp : TInterpreter) (s : submission)
    : World :=
  {| iNs := iNs w; gInterpreter := interp; scopes := scopes w;
     submitted := submitted w ++ [s] |}.

(** The value of the call decides the result. *)
Definition calcResult (methodName line : string) (retVal interpErrCode : Z)
    : result Z :=
  if negb (kNoError =? interpErrCode)%Z || (retVal =? 0)%Z
  then Throw (runtime_error (invocationError methodName line interpErrCode))
  else Ok retVal.

(** The expression is submitted, and the call if the expression is
    accepted. *)
Definition submitExpression (methodName valid line : string) (w : World)
    : result Z * World :=
  let '(ok, interp) := TInterpreter_Declare valid (gInterpreter w) in
  let w := answered w interp (SubmittedDeclare valid ok) in
  if ok then
    let '((retVal, interpErrCode), interp) := Calc line (gInterpreter w) in
    (calcResult methodName line retVal interpErrCode,
     answered w interp (SubmittedCalc line retVal interpErrCode))
  else (Throw (runtime_error (validationError valid)), w).

(** The variables are submitted first, and the rest if they are
    accepted. *)
Definition submitVariables (methodName decl valid line : string) (w : World)
    : result Z * World :=
  let '(interpErrCode, interp) := ProcessLine decl (gInterpreter w) in
  let w := answered w interp (SubmittedProcessLine decl interpErrCode) in
  if (kNoError =? interpErrCode)%Z
  then submitExpression methodName valid line w
  else (Throw (runtime_error (declarationError decl interpErrCode)), w).
End Submissions.

(** A framework in which the column x has type double, the type of the
    column u cannot be determined (its name is empty) and the lookup of
    the type of any other column throws. *)
Definition partialFramework : Framework := {|
  TTree := list string;
  TDataSource := list string;
  TCustomColumnBase := unit;
  type_info := string;
  HasBranch := λ t name, found name t;
  GetColumnNames := λ d, d;
  ColumnName2ColumnTypeName := λ name _ _ _,
    if String.eqb name "x" then Ok "double"
    else if String.eqb name "u" then Ok EmptyString
    else Throw (runtime_error "unknown column");
  TClass_GetClass := λ ti, if empty ti then None else Some ti;
  show_pointer := λ p,
    "0x" +:+ HexadecimalString.NilEmpty.string_of_uint (N.to_hex_uint (Z.to_N p));
  Regexp_Index := TRegexp_Index;
|}.

Section Invocations.
Context {FW : Framework} {IP : Interpreter}.

(** The columns that the expression of an invocation uses, and the lookup
    of the type of one of them. *)
Definition usedColumns (c : JitCall) : list string :=
  FindUsedColumnNames Regexp_Index (call_expression c) (call_branches c)
    (call_customColumns c)
    (match call_ds c with Some d => GetColumnNames d | None => [] end).

Definition columnType (c : JitCall) (column : string) : result string :=
  ColumnName2ColumnTypeName column (call_tree c)
    (call_tmpBookedBranches c !! column) (call_ds c).

(** The texts of an invocation whose used columns have the types [types]
    and whose scope is [nsName]. *)
Definition declarationOf (c : JitCall) (nsName : string) (types : list string)
    : string :=
  declarationText nsName types (usedColumns c).

Definition validationOf (c : JitCall) (nsName : string) : string :=
  validationText nsName (call_expression c).

Definition invocationOf (c : JitCall) (types : list string) : string :=
  invocationText (call_thisPtr c) (call_methodName c)
    (call_interfaceTypeName c) (call_name c)
    (lambdaText types (usedColumns c) (call_expression c))
    (call_returnTypeName c) (usedColumns c).

(** The accepted declaration of the variables, if there are any. *)
Definition acceptedVariables (needsVariables : bool) (decl : string)
    : list submission :=
  if needsVariables then [SubmittedProcessLine decl kNoError] else [].

(** The result and the submissions of an invocation that got the types of
    its columns: the variables were refused; or the expression was
    refused; or the call was submitted and its answer decides. *)
Inductive runShape (methodName decl valid line : string) (needsVariables : bool)
    : result Z → list submission → Prop :=
| shape_declaration code :
    needsVariables = true → code ≠ kNoError →
    runShape methodName decl valid line needsVariables
      (Throw (runtime_error (declarationError decl code)))
      [SubmittedProcessLine decl code]
| shape_validation :
    runShape methodName decl valid line needsVariables
      (Throw (runtime_error (validationError valid)))
      (acceptedVariables needsVariables decl ++ [SubmittedDeclare valid false])
| shape_call retVal code :
    runShape methodName decl valid line needsVariables
      (calcResult methodName line retVal code)
      (acceptedVariables needsVariables decl
       ++ [SubmittedDeclare valid true; SubmittedCalc line retVal code]).
End Invocations.

(** The sample invocation on the framework in which only the column x has
    a type. *)
Definition partialCall (expression : string) : @JitCall partialFramework :=
  {| call_thisPtr := 8000;
     call_methodName := "Define";
     call_interfaceTypeName := "Node";
     call_name := "z";
     call_expression := expression;
     call_branches := Some ["x"; "y"; "u"];
     call_customColumns := [];
     call_tmpBookedBranches := ∅;
     call_tree := Some (["x"; "y"; "u"] : @TTree partialFramework);
     call_returnTypeName := "Base";
     call_ds := None |}.

(** * Properties *)

Lemma empty_true (s : string) : empty s = true ↔ s = EmptyString.
Proof. destruct s; simpl; split; congruence. Qed.

Lemma found_In (x : string) (v : list string) : found x v = true ↔ In x v.
Proof.
  induction v as [|y v IH]; simpl.
  - split; [discriminate | tauto].
  - destruct (String.eqb_spec y x) as [->|Hne].
    + tauto.
    + rewrite IH. split; [tauto | intros [H|H]; [congruence | exact H]].
Qed.

(** C10: [AtLeastOneEmptyString] answers [true] exactly when some element of
    the list is the empty string; on the empty list it answers [false]. *)
Theorem AtLeastOneEmptyString_iff (strings : list string) :
  (AtLeastOneEmptyString strings = true ↔ ∃ s, In s strings ∧ s = EmptyString)
  ∧ AtLeastOneEmptyString [] = false.
Proof.
  split; [|reflexivity].
  induction strings as [|s strings IH]; simpl.
  - split; [discriminate | intros (s & [] & _)].
  - destruct (empty s) eqn:Hs.
    + apply empty_true in Hs. split; [|reflexivity].
      intros _. exists s. tauto.
    + rewrite IH. split.
      * intros (t & Ht & E). exists t. tauto.
      * intros (t & [<-|Ht] & E).
        -- subst. discriminate.
        -- exists t. tauto.
Qed.

Section FindUndefinedDSColumns_facts.
Variables requestedCols definedCols : list string.

Let step := FindUndefinedDSColumns_step requestedCols definedCols.
Let flag (col : string) : bool := negb (found col definedCols).

(** Loop invariant: after the indices [0 .. k-1] the first [k] flags are
    final and the others are still [false]. *)
Lemma FindUndefinedDSColumns_loop (k : nat) :
  k ≤ length requestedCols →
  foldl step (replicate (length requestedCols) false) (seq 0 k)
  = (flag <$> take k requestedCols) ++ replicate (length requestedCols - k) false.
Proof.
  induction k as [|k IH]; intros Hk.
  - simpl. rewrite Nat.sub_0_r. reflexivity.
  - rewrite seq_S, foldl_app. simpl. rewrite IH by lia.
    destruct (lookup_lt_is_Some_2 requestedCols k) as [col Hcol]; [lia|].
    unfold step at 1, FindUndefinedDSColumns_step.
    rewrite (list_lookup_total_correct _ _ _ Hcol).
    rewrite (take_S_r _ _ _ Hcol), fmap_app. simpl.
    replace (length requestedCols - k) with (S (length requestedCols - S k)) by lia.
    simpl. rewrite <- (assoc_L (++)). simpl.
    assert (Hlen : length (flag <$> take k requestedCols) = k).
    { rewrite length_fmap, length_take. lia. }
    rewrite <- Hlen at 1.
    rewrite insert_app_r_alt by lia. rewrite Nat.sub_diag. reflexivity.
Qed.

Lemma FindUndefinedDSColumns_map :
  FindUndefinedDSColumns requestedCols definedCols = flag <$> requestedCols.
Proof.
  unfold FindUndefinedDSColumns.
  fold step. rewrite FindUndefinedDSColumns_loop by lia.
  rewrite Nat.sub_diag, firstn_all. simpl. apply app_nil_r.
Qed.
End FindUndefinedDSColumns_facts.

(** C8: [FindUndefinedDSColumns] returns one flag per requested name; the
    i-th flag is [true] exactly when the i-th requested name is absent from
    the defined names; with no defined name every flag is [true]. *)
Theorem FindUndefinedDSColumns_spec (requestedCols definedCols : list string) :
  length (FindUndefinedDSColumns requestedCols definedCols) = length requestedCols
  ∧ (∀ i col, requestedCols !! i = Some col →
       ∃ b, FindUndefinedDSColumns requestedCols definedCols !! i = Some b
            ∧ (b = true ↔ ¬ In col definedCols))
  ∧ FindUndefinedDSColumns requestedCols [] = replicate (length requestedCols) true.
Proof.
  rewrite !FindUndefinedDSColumns_map. split; [|split].
  - apply length_fmap.
  - intros i col Hcol. exists (negb (found col definedCols)). split.
    + rewrite list_lookup_fmap, Hcol. reflexivity.
    + rewrite negb_true_iff, <- not_true_iff_false, found_In. reflexivity.
  - induction requestedCols as [|c l IH]; simpl; [reflexivity|].
    f_equal. exact IH.
Qed.

(** ** Facts about strings *)

Lemma str_app_assoc (a b c : string) : (a +:+ b) +:+ c = a +:+ b +:+ c.
Proof. induction a as [|x a IH]; simpl; [reflexivity | f_equal; exact IH]. Qed.

Lemma str_app_nil_r (a : string) : a +:+ EmptyString = a.
Proof. induction a as [|x a IH]; simpl; [reflexivity | f_equal; exact IH]. Qed.

Lemma str_length_app (a b : string) :
  String.length (a +:+ b) = String.length a + String.length b.
Proof. induction a as [|x a IH]; simpl; [reflexivity | f_equal; exact IH]. Qed.

Lemma to_list_app (a b : string) :
  list_ascii_of_string (a +:+ b) = list_ascii_of_string a ++ list_ascii_of_string b.
Proof. induction a as [|x a IH]; simpl; [reflexivity | f_equal; exact IH]. Qed.

Lemma to_list_inj (a b : string) :
  list_ascii_of_string a = list_ascii_of_string b → a = b.
Proof.
  intros H. rewrite <- (string_of_list_ascii_of_string a), H.
  apply string_of_list_ascii_of_string.
Qed.

Lemma str_app_inv_tail (a b : string) (x y : ascii) :
  a +:+ String x EmptyString = b +:+ String y EmptyString → a = b ∧ x = y.
Proof.
  intros H. apply (f_equal list_ascii_of_string) in H.
  rewrite !to_list_app in H. simpl in H.
  apply app_inj_tail in H as [H ->]. split; [now apply to_list_inj | reflexivity].
Qed.

Lemma str_snoc_cases (a : string) :
  a = EmptyString ∨ ∃ rest c, a = rest +:+ String c EmptyString.
Proof.
  induction a as [|x a IH]; [now left | right].
  destruct IH as [->|(rest & c & ->)].
  - exists EmptyString, x. reflexivity.
  - exists (String x rest), c. reflexivity.
Qed.

Lemma includes_refl (s : string) : includes s s.
Proof. exists EmptyString, EmptyString. simpl. now rewrite str_app_nil_r. Qed.

Lemma includes_app_l (p t s : string) : includes t s → includes (p +:+ t) s.
Proof.
  intros (pre & post & ->). exists (p +:+ pre), post.
  symmetry. apply str_app_assoc.
Qed.

Lemma includes_app_r (t q s : string) : includes t s → includes (t +:+ q) s.
Proof.
  intros (pre & post & ->). exists pre, (post +:+ q).
  rewrite (str_app_assoc pre). f_equal. apply str_app_assoc.
Qed.

(** ** FindUsedColumnNames: shape of the result *)

Section FindUsedColumnNames_facts.
Variable Index : string → string → Z.
Variable paddedExpr : string.

Let m (n : string) : Prop := nameMatches Index paddedExpr n = true.

Lemma addIfMatches_loop (acc l : list string) :
  foldl (addIfMatches Index paddedExpr) acc l = acc ++ filter m l.
Proof.
  revert acc. induction l as [|n l IH]; intros acc; simpl.
  - now rewrite app_nil_r.
  - rewrite IH. unfold addIfMatches, m. rewrite filter_cons.
    destruct (nameMatches Index paddedExpr n) eqn:E.
    + rewrite decide_True by reflexivity. now rewrite <- app_assoc.
    + rewrite decide_False by discriminate. reflexivity.
Qed.

Lemma addIfMatchesAndNew_loop (acc l : list string) :
  foldl (addIfMatchesAndNew Index paddedExpr) acc l
  = acc ++ newFromDs Index paddedExpr acc l.
Proof.
  revert acc. induction l as [|n l IH]; intros acc; simpl.
  - now rewrite app_nil_r.
  - rewrite IH. unfold addIfMatchesAndNew.
    destruct (nameMatches Index paddedExpr n); simpl; [|reflexivity].
    destruct (found n acc); simpl; [reflexivity|].
    now rewrite <- app_assoc.
Qed.

(** What the third loop adds: matching data-source names that were not
    found before, each once. *)
Lemma newFromDs_elem (acc l : list string) (n : string) :
  n ∈ newFromDs Index paddedExpr acc l ↔ n ∈ l ∧ m n ∧ n ∉ acc.
Proof.
  revert acc. induction l as [|c l IH]; intros acc; simpl.
  - rewrite !elem_of_nil. tauto.
  - destruct (nameMatches Index paddedExpr c) eqn:Em; simpl.
    + destruct (found c acc) eqn:Ef; simpl.
      * apply found_In, list_elem_of_In in Ef.
        rewrite IH, elem_of_cons. split; [tauto|].
        intros ([->|H] & Hm & Hn); [contradiction | tauto].
      * assert (Hc : c ∉ acc).
        { rewrite list_elem_of_In, <- found_In, Ef. discriminate. }
        rewrite !elem_of_cons, IH, elem_of_app, list_elem_of_singleton.
        split.
        -- intros [->|(H1 & H2 & H3)]; [|tauto].
           split; [now left | split; [exact Em | exact Hc]].
        -- intros ([->|H1] & H2 & H3); [now left|].
           destruct (decide (n = c)) as [->|Hne]; [now left | right; tauto].
    + rewrite IH, elem_of_cons. split; [tauto|].
      intros ([->|H] & Hm & Hn); [|tauto].
      unfold m in Hm. congruence.
Qed.

Lemma newFromDs_NoDup (acc l : list string) :
  NoDup (newFromDs Index paddedExpr acc l).
Proof.
  revert acc. induction l as [|c l IH]; intros acc; simpl.
  - constructor.
  - destruct (nameMatches Index paddedExpr c && negb (found c acc)); [|apply IH].
    constructor; [|apply IH].
    rewrite newFromDs_elem, elem_of_app, list_elem_of_singleton. tauto.
Qed.

Lemma newFromDs_sublist (acc l : list string) :
  sublist (newFromDs Index paddedExpr acc l) l.
Proof.
  revert acc. induction l as [|c l IH]; intros acc; simpl.
  - constructor.
  - destruct (nameMatches Index paddedExpr c && negb (found c acc)).
    + constructor. apply IH.
    + constructor. apply IH.
Qed.
End FindUsedColumnNames_facts.

Lemma FindUsedColumnNames_parts Index expression branches customColumns dsColumns :
  let paddedExpr := " " +:+ expression +:+ " " in
  let m := λ n, nameMatches Index paddedExpr n = true in
  let first := filter m customColumns ++ filter m (branchNames branches) in
  FindUsedColumnNames Index expression branches customColumns dsColumns
  = first ++ newFromDs Index paddedExpr first dsColumns.
Proof.
  intros paddedExpr m first. unfold FindUsedColumnNames. fold paddedExpr.
  rewrite addIfMatchesAndNew_loop.
  assert (E : match branches with
              | Some brs => foldl (addIfMatches Index paddedExpr)
                              (foldl (addIfMatches Index paddedExpr) [] customColumns) brs
              | None => foldl (addIfMatches Index paddedExpr) [] customColumns
              end = first).
  { unfold first. destruct branches as [brs|]; simpl.
    - now rewrite !addIfMatches_loop.
    - now rewrite addIfMatches_loop, app_nil_r. }
  now rewrite E.
Qed.

(** C1, amended: the result is the matching custom names, then the matching
    dataset names, then data-source names: those matching data-source
    names, in the order of the data-source list and each once, that are not
    among the names before them.  Only the data-source loop looks at what
    was found before, so the result is free of duplicates exactly when the
    matching custom and dataset names, taken together, are. *)
Theorem FindUsedColumnNames_order_nodup Index expression branches customColumns dsColumns :
  ∃ fromDs,
    FindUsedColumnNames Index expression branches customColumns dsColumns
    = matching Index expression customColumns
      ++ matching Index expression (branchNames branches) ++ fromDs
    ∧ sublist fromDs (matching Index expression dsColumns)
    ∧ NoDup fromDs
    ∧ (∀ n, n ∈ fromDs
            ↔ n ∈ matching Index expression dsColumns
              ∧ n ∉ matching Index expression customColumns
                    ++ matching Index expression (branchNames branches))
    ∧ (NoDup (FindUsedColumnNames Index expression branches customColumns dsColumns)
       ↔ NoDup (matching Index expression customColumns
                ++ matching Index expression (branchNames branches))).
Proof.
  rewrite FindUsedColumnNames_parts. unfold matching.
  set (paddedExpr := " " +:+ expression +:+ " ").
  set (m := λ n, nameMatches Index paddedExpr n = true).
  set (first := filter m customColumns ++ filter m (branchNames branches)).
  exists (newFromDs Index paddedExpr first dsColumns).
  split; [now rewrite app_assoc|]. split; [|split; [|split]].
  - assert (H : ∀ acc l, sublist (newFromDs Index paddedExpr acc l) (filter m l)).
    { intros acc l. revert acc. induction l as [|c l IH]; intros acc; simpl.
      - constructor.
      - rewrite filter_cons.
        destruct (decide (m c)) as [Em|Em]; unfold m in Em.
        + rewrite Em. destruct (found c acc); simpl; constructor; apply IH.
        + apply not_true_is_false in Em. rewrite Em. apply IH. }
    apply H.
  - apply newFromDs_NoDup.
  - intros n. rewrite newFromDs_elem, list_elem_of_filter. tauto.
  - rewrite NoDup_app. split; [tauto|]. intros Hfirst.
    split; [exact Hfirst|]. split; [|apply newFromDs_NoDup].
    intros n Hn. rewrite newFromDs_elem. tauto.
Qed.

(** C1: a name that is both a custom column and a tree branch is returned
    twice. *)
Lemma FindUsedColumnNames_dup :
  ¬ NoDup (FindUsedColumnNames TRegexp_Index "x" (Some ["x"]) ["x"] []).
Proof.
  assert (E : FindUsedColumnNames TRegexp_Index "x" (Some ["x"]) ["x"] [] = ["x"; "x"])
    by (vm_compute; reflexivity).
  rewrite E. intros H. apply NoDup_cons in H as [H _]. apply H. left.
Qed.

(** ** The matching primitive and isolated tokens *)

(** *** The literal search *)

Lemma token_here_spec (name text : string) :
  token_here name text = true
  ↔ ∃ d rest, text = name +:+ String d rest ∧ isIdentChar d = false.
Proof.
  revert text. induction name as [|a name IH]; intros text; simpl.
  - destruct text as [|c text].
    + split; [discriminate | intros (d & rest & E & _); discriminate].
    + rewrite negb_true_iff. split.
      * intros H. now exists c, text.
      * intros (d & rest & E & H). now injection E as -> ->.
  - destruct text as [|c text].
    + split; [discriminate | intros (d & rest & E & _); discriminate].
    + rewrite andb_true_iff, IH, Ascii.eqb_eq. split.
      * intros (-> & d & rest & -> & H). now exists d, rest.
      * intros (d & rest & E & H). injection E as -> ->.
        split; [reflexivity | now exists d, rest].
Qed.

Lemma token_index_spec (name text : string) (pos : Z) :
  (0 ≤ pos)%Z →
  (token_index name text pos ≠ (-1)%Z
   ↔ ∃ pre c post, text = pre +:+ String c post
                   ∧ isIdentChar c = false ∧ token_here name post = true).
Proof.
  revert pos. induction text as [|c text IH]; intros pos Hpos; simpl.
  - split; [congruence|]. intros (pre & c & post & E & _).
    destruct pre; discriminate.
  - destruct (negb (isIdentChar c) && token_here name text) eqn:E.
    + apply andb_true_iff in E as [Hc Hn]. apply negb_true_iff in Hc.
      split; [|lia]. intros _. now exists EmptyString, c, text.
    + rewrite IH by lia. split.
      * intros (pre & c' & post & -> & Hc & Hn).
        now exists (String c pre), c', post.
      * intros (pre & c' & post & E' & Hc & Hn).
        destruct pre as [|p pre]; simpl in E'; injection E' as -> ->.
        -- rewrite Hc, Hn in E. discriminate.
        -- now exists pre, c', post.
Qed.

Lemma space_not_ident : isIdentChar " " = false.
Proof. reflexivity. Qed.

(** A match in the padded text that starts at the pad or inside the
    expression leaves a free end before it. *)
Lemma padded_head_split (e pre tail : string) (c : ascii) :
  " " +:+ e = pre +:+ String c tail → isIdentChar c = false →
  ∃ before, e = before +:+ tail ∧ freeAtEnd before.
Proof.
  intros E Hc. destruct pre as [|p pre]; simpl in E; injection E as _ ->.
  - exists EmptyString. split; [reflexivity|].
    intros rest x Hx. destruct rest; discriminate.
  - exists (pre +:+ String c EmptyString). split.
    + now rewrite str_app_assoc.
    + intros rest x Hx. apply str_app_inv_tail in Hx as [_ ->]. exact Hc.
Qed.

Lemma padded_tail_split (e y rest : string) (d : ascii) :
  e +:+ " " = y +:+ String d rest → isIdentChar d = false →
  ∃ after, e = y +:+ after ∧ freeAtStart after.
Proof.
  intros E Hd. destruct (str_snoc_cases rest) as [->|(rest' & z & ->)].
  - apply str_app_inv_tail in E as [-> _]. exists EmptyString.
    split; [now rewrite str_app_nil_r|]. intros x r Hx. discriminate.
  - change (String d (rest' +:+ String z EmptyString))
      with (String d rest' +:+ String z EmptyString) in E.
    rewrite <- str_app_assoc in E. apply str_app_inv_tail in E as [-> _].
    exists (String d rest'). split; [reflexivity|].
    intros x r Hx. now injection Hx as <- _.
Qed.

(** The literal search finds a name in the padded expression exactly when
    the name is an isolated token of the expression. *)
Lemma token_index_isolated (name expression : string) :
  token_index name (" " +:+ expression +:+ " ") 0 ≠ (-1)%Z
  ↔ isolatedToken name expression.
Proof.
  rewrite token_index_spec by lia. split.
  - intros (pre & c & post & E & Hc & Hn).
    apply token_here_spec in Hn as (d & rest & -> & Hd).
    destruct (padded_head_split _ _ _ _ E Hc) as (before & E1 & Hb).
    rewrite <- str_app_assoc in E1.
    destruct (padded_tail_split _ _ _ _ E1 Hd) as (after & E2 & Ha).
    exists before, after. rewrite E2. now rewrite str_app_assoc.
  - intros (before & after & -> & Hb & Ha).
    assert (Hpre : ∃ pre c, " " +:+ before = pre +:+ String c EmptyString
                            ∧ isIdentChar c = false).
    { destruct (str_snoc_cases before) as [->|(r & c & ->)].
      - exists EmptyString, " "%char. split; reflexivity.
      - exists (" " +:+ r), c. split; [reflexivity | now apply (Hb r c)]. }
    assert (Hpost : ∃ d rest, after +:+ " " = String d rest
                              ∧ isIdentChar d = false).
    { destruct after as [|d r].
      - exists " "%char, EmptyString. split; reflexivity.
      - exists d, (r +:+ " "). split; [reflexivity | now apply (Ha d r)]. }
    destruct Hpre as (pre & c & E1 & Hc), Hpost as (d & rest & E2 & Hd).
    exists pre, c, (name +:+ String d rest). split; [|split; [exact Hc|]].
    + rewrite <- E2.
      change (String c (name +:+ after +:+ " "))
        with (String c EmptyString +:+ name +:+ after +:+ " ").
      rewrite <- (str_app_assoc pre), <- E1.
      now rewrite !str_app_assoc.
    + apply token_here_spec. now exists d, rest.
Qed.

(** *** C strings *)



(** *** The pattern of a plain name *)
















(** The text is read up to its first NUL character: a name that is an
    isolated token after that character is not returned. *)
Example FindUsedColumnNames_nul :
  let expression := "x " +:+ String NUL "+ y" in
  FindUsedColumnNames TRegexp_Index expression (Some ["x"; "y"]) [] [] = ["x"]
  ∧ isolatedToken "y" expression.
Proof.
  intros expression. split; [vm_compute; reflexivity|].
  apply token_index_isolated. vm_compute. discriminate.
Qed.

(** ** String streams *)

Lemma str_take_all (s : string) : str_take (String.length s) s = s.
Proof. induction s as [|c s IH]; simpl; [reflexivity | now rewrite IH]. Qed.

Lemma str_drop_all (s : string) (k : nat) :
  str_drop (String.length s + k) s = EmptyString.
Proof. induction s as [|c s IH]; simpl; [now destruct k | exact IH]. Qed.

Lemma atEnd_new : atEnd stringstream_new.
Proof. split; reflexivity. Qed.

Lemma atEnd_set_str (ss : stringstream) :
  fail ss = false → atEnd (set_str ss EmptyString).
Proof. intros Hf. split; [exact Hf | reflexivity]. Qed.

Lemma put_atEnd (ss : stringstream) (s : string) :
  atEnd ss → str (ss << s) = str ss +:+ s ∧ atEnd (ss << s).
Proof.
  intros [Hf Hp]. unfold put. rewrite Hf. simpl.
  rewrite Hp, str_take_all, str_drop_all, str_app_nil_r.
  split; [reflexivity|]. split; [reflexivity|]. simpl.
  now rewrite str_length_app.
Qed.

Lemma put_atEnd_str (ss : stringstream) (s : string) :
  atEnd ss → str (ss << s) = str ss +:+ s.
Proof. intros Hs. now apply put_atEnd. Qed.

Lemma put_atEnd_atEnd (ss : stringstream) (s : string) :
  atEnd ss → atEnd (ss << s).
Proof. intros Hs. now apply put_atEnd. Qed.

Create HintDb stream.
#[local] Hint Resolve atEnd_new put_atEnd_atEnd : stream.

(** Closes the side conditions that a stream is still at its end. *)
Ltac stream_at_end := auto 20 with stream.

(** Reads a chain of insertions at the end of a stream as appends. *)
Ltac stream_str := rewrite !put_atEnd_str by stream_at_end.

(** ** GetValidatedColumnNames *)

Section Validation_facts.
Context {FW : Framework}.
Variables (tree : option TTree) (definedCols dataSourceColumns : list string).

Let known := isKnownColumn tree definedCols dataSourceColumns.
Let addUnknown := λ (unknownColumns : list string) (column : string),
  if known column || found column unknownColumns then unknownColumns
  else unknownColumns ++ [column].

Lemma FindUnknownColumns_loop (l acc : list string) :
  NoDup acc →
  NoDup (foldl addUnknown acc l)
  ∧ ∀ c, c ∈ foldl addUnknown acc l ↔ c ∈ acc ∨ (c ∈ l ∧ known c = false).
Proof.
  revert acc. induction l as [|x l IH]; intros acc Hacc; simpl.
  - split; [exact Hacc|]. intros c. rewrite elem_of_nil. tauto.
  - unfold addUnknown at 2 4. destruct (known x) eqn:Ek; simpl.
    + destruct (IH acc Hacc) as [H1 H2]. split; [exact H1|].
      intros c. rewrite H2, elem_of_cons. split; [tauto|].
      intros [Hc|([->|Hc] & Hk)]; [tauto | congruence | tauto].
    + destruct (found x acc) eqn:Ef.
      * apply found_In, list_elem_of_In in Ef.
        destruct (IH acc Hacc) as [H1 H2]. split; [exact H1|].
        intros c. rewrite H2, elem_of_cons. split; [tauto|].
        intros [Hc|([->|Hc] & Hk)]; tauto.
      * assert (Hx : x ∉ acc).
        { rewrite list_elem_of_In, <- found_In, Ef. discriminate. }
        assert (Hacc' : NoDup (acc ++ [x])).
        { apply NoDup_app. split; [exact Hacc|]. split; [|apply NoDup_singleton].
          intros y Hy Hy'. apply list_elem_of_singleton in Hy'. now subst. }
        destruct (IH _ Hacc') as [H1 H2]. split; [exact H1|].
        intros c. rewrite H2, elem_of_app, list_elem_of_singleton, elem_of_cons.
        split; [|tauto]. intros [[Hc| ->]|Hc]; tauto.
Qed.

Lemma FindUnknownColumns_spec (requiredCols : list string) :
  NoDup (FindUnknownColumns requiredCols tree definedCols dataSourceColumns)
  ∧ ∀ c, c ∈ FindUnknownColumns requiredCols tree definedCols dataSourceColumns
         ↔ c ∈ requiredCols ∧ known c = false.
Proof.
  destruct (FindUnknownColumns_loop requiredCols [] (NoDup_nil_2)) as [H1 H2].
  split; [exact H1|]. intros c. unfold FindUnknownColumns. fold known.
  fold addUnknown. rewrite H2, elem_of_nil. tauto.
Qed.
End Validation_facts.

Lemma writeUnknown_loop (unknownColumns : list string) (unknown delim : string)
    (ss : stringstream) :
  atEnd ss →
  str (foldl writeUnknown (ss, delim) (unknown :: unknownColumns)).1
  = str ss +:+ delim +:+ String.concat "," (unknown :: unknownColumns).
Proof.
  revert unknown delim ss.
  induction unknownColumns as [|u us IH]; intros unknown delim ss Hss.
  - simpl. stream_str.
    apply str_app_assoc.
  - change (foldl writeUnknown (ss, delim) (unknown :: u :: us))
      with (foldl writeUnknown (ss << delim << unknown, ",") (u :: us)).
    rewrite IH by stream_at_end.
    stream_str.
    change (String.concat "," (unknown :: u :: us))
      with (unknown +:+ "," +:+ String.concat "," (u :: us)).
    now rewrite !str_app_assoc.
Qed.

Section GetValidatedColumnNames_facts.
Context {FW : Framework}.
Variables (lm : TLoopManager) (nColumns : nat).
Variables (columns validCustomColumns : list string) (ds : option TDataSource).

Let dsColumns := match ds with Some d => GetColumnNames d | None => [] end.
Let known := isKnownColumn (GetTree lm) validCustomColumns dsColumns.

(** The outcome of the call in terms of the selection and of the unknown
    names. *)
Lemma GetValidatedColumnNames_outcome (selected : list string) :
  SelectColumns nColumns columns (GetDefaultColumnNames lm) = Ok selected →
  GetValidatedColumnNames lm nColumns columns validCustomColumns ds
  = match FindUnknownColumns selected (GetTree lm) validCustomColumns dsColumns with
    | [] => Ok selected
    | unknown =>
        Throw (runtime_error
                 ("Unknown column"
                  +:+ (if length unknown =? 1 then ": " else "s: ")
                  +:+ String.concat "," unknown))
    end.
Proof.
  intros Hsel. unfold GetValidatedColumnNames. rewrite Hsel.
  change (Ok selected ≫= ?k) with (k selected). cbv beta.
  fold dsColumns.
  destruct (FindUnknownColumns selected (GetTree lm) validCustomColumns dsColumns)
    as [|u us] eqn:E; [reflexivity|].
  pose proof (writeUnknown_loop us u
                (if 1 <? length (u :: us) then "s: " else ": ")
                stringstream_new atEnd_new) as Hw.
  destruct (foldl writeUnknown _ (u :: us)) as [unknowns d] eqn:El.
  cbn [fst] in Hw. rewrite Hw. destruct us; reflexivity.
Qed.

Lemma GetValidatedColumnNames_Throw_select (e : exception) :
  SelectColumns nColumns columns (GetDefaultColumnNames lm) = Throw e →
  GetValidatedColumnNames lm nColumns columns validCustomColumns ds = Throw e.
Proof. intros Hsel. unfold GetValidatedColumnNames. now rewrite Hsel. Qed.

Lemma GetValidatedColumnNames_Ok (r : list string) :
  GetValidatedColumnNames lm nColumns columns validCustomColumns ds = Ok r →
  SelectColumns nColumns columns (GetDefaultColumnNames lm) = Ok r.
Proof.
  destruct (SelectColumns nColumns columns (GetDefaultColumnNames lm))
    as [sel|e] eqn:Hsel.
  - rewrite (GetValidatedColumnNames_outcome sel Hsel).
    destruct (FindUnknownColumns _ _ _ _); congruence.
  - rewrite (GetValidatedColumnNames_Throw_select e Hsel). discriminate.
Qed.
End GetValidatedColumnNames_facts.

(** C3: with supplied names, a successful call has as many names as
    requested and returns them unchanged, and a different number makes the
    call fail; without supplied names, a successful call returns the first
    [nColumns] default names, and fewer default names make the call fail.
    When every selected name is known the call succeeds with the
    selection. *)
Theorem GetValidatedColumnNames_selection {FW : Framework} (lm : TLoopManager)
    (nColumns : nat) (columns validCustomColumns : list string)
    (ds : option TDataSource) :
  let call := GetValidatedColumnNames lm nColumns columns validCustomColumns ds in
  let dsColumns := match ds with Some d => GetColumnNames d | None => [] end in
  (columns ≠ [] →
     (∀ r, call = Ok r → length columns = nColumns ∧ r = columns)
     ∧ (length columns ≠ nColumns → throws call)
     ∧ (length columns = nColumns →
        Forall (λ c, isKnownColumn (GetTree lm) validCustomColumns dsColumns c = true)
          columns →
        call = Ok columns))
  ∧ (columns = [] →
     (∀ r, call = Ok r → r = take nColumns (GetDefaultColumnNames lm))
     ∧ (length (GetDefaultColumnNames lm) < nColumns → throws call)
     ∧ (nColumns ≤ length (GetDefaultColumnNames lm) →
        Forall (λ c, isKnownColumn (GetTree lm) validCustomColumns dsColumns c = true)
          (take nColumns (GetDefaultColumnNames lm)) →
        call = Ok (take nColumns (GetDefaultColumnNames lm)))).
Proof.
  intros call dsColumns.
  assert (Hknown : ∀ sel,
    SelectColumns nColumns columns (GetDefaultColumnNames lm) = Ok sel →
    Forall (λ c, isKnownColumn (GetTree lm) validCustomColumns dsColumns c = true) sel →
    call = Ok sel).
  { intros sel Hsel Hall. unfold call.
    rewrite (GetValidatedColumnNames_outcome _ _ _ _ _ sel Hsel). fold dsColumns.
    destruct (FindUnknownColumns sel (GetTree lm) validCustomColumns dsColumns)
      as [|u us] eqn:E; [reflexivity|].
    assert (Hu : u ∈ FindUnknownColumns sel (GetTree lm) validCustomColumns dsColumns)
      by (rewrite E; left).
    apply FindUnknownColumns_spec in Hu as [Hin Hk].
    rewrite Forall_forall in Hall. rewrite (Hall u Hin) in Hk. discriminate. }
  split.
  - intros Hne. destruct columns as [|c cs] eqn:Ec; [congruence|]. split; [|split].
    + intros r Hr. apply GetValidatedColumnNames_Ok in Hr.
      unfold SelectColumns in Hr.
      destruct (Nat.eqb_spec (length (c :: cs)) nColumns) as [En|En];
        [|discriminate].
      injection Hr as <-. now split.
    + intros Hlen. exists (runtime_error "ColumnCountMismatch").
      apply GetValidatedColumnNames_Throw_select. unfold SelectColumns.
      apply Nat.eqb_neq in Hlen. now rewrite Hlen.
    + intros Hlen Hall. apply Hknown; [|exact Hall]. unfold SelectColumns.
      apply Nat.eqb_eq in Hlen. now rewrite Hlen.
  - intros ->. split; [|split].
    + intros r Hr. apply GetValidatedColumnNames_Ok in Hr.
      unfold SelectColumns in Hr.
      destruct (length (GetDefaultColumnNames lm) <? nColumns); [discriminate|].
      now injection Hr as <-.
    + intros Hlen. exists (runtime_error "ColumnCountMismatch").
      apply GetValidatedColumnNames_Throw_select. unfold SelectColumns.
      apply Nat.ltb_lt in Hlen. now rewrite Hlen.
    + intros Hlen Hall. apply Hknown; [|exact Hall]. unfold SelectColumns.
      apply Nat.ltb_ge in Hlen. now rewrite Hlen.
Qed.

(** C4: once the names are selected, the call succeeds exactly when every
    selected name is a tree branch, a custom column or a data-source
    column; otherwise it throws one error whose message is the text
    Unknown column, a colon for one unknown name or s and a colon for
    several, and the unknown names separated by commas, each unknown name
    once. *)
Theorem GetValidatedColumnNames_unknown {FW : Framework} (lm : TLoopManager)
    (nColumns : nat) (columns validCustomColumns : list string)
    (ds : option TDataSource) (selected : list string) :
  SelectColumns nColumns columns (GetDefaultColumnNames lm) = Ok selected →
  let call := GetValidatedColumnNames lm nColumns columns validCustomColumns ds in
  let dsColumns := match ds with Some d => GetColumnNames d | None => [] end in
  let known := isKnownColumn (GetTree lm) validCustomColumns dsColumns in
  (succeeds call ↔ ∀ c, c ∈ selected → known c = true)
  ∧ ∃ unknown,
      NoDup unknown
      ∧ (∀ c, c ∈ unknown ↔ c ∈ selected ∧ known c = false)
      ∧ call = match unknown with
               | [] => Ok selected
               | _ :: _ =>
                   Throw (runtime_error
                            ("Unknown column"
                             +:+ (if length unknown =? 1 then ": " else "s: ")
                             +:+ String.concat "," unknown))
               end.
Proof.
  intros Hsel call dsColumns known.
  pose proof (GetValidatedColumnNames_outcome lm nColumns columns
                validCustomColumns ds selected Hsel) as Hout.
  fold call dsColumns in Hout.
  destruct (FindUnknownColumns_spec (GetTree lm) validCustomColumns dsColumns selected)
    as [Hnd Hin]. fold known in Hin.
  set (unknown := FindUnknownColumns selected (GetTree lm) validCustomColumns dsColumns) in *.
  split.
  - split.
    + intros [r Hr] c Hc. destruct (known c) eqn:Ek; [reflexivity|].
      assert (Hu : c ∈ unknown) by (apply Hin; now split).
      rewrite Hout in Hr. destruct unknown; [|discriminate].
      now apply elem_of_nil in Hu.
    + intros Hall. exists selected. rewrite Hout.
      destruct unknown as [|u us]; [reflexivity|].
      assert (Hu : u ∈ u :: us) by left.
      apply Hin in Hu as [Hu Hk]. rewrite (Hall u Hu) in Hk. discriminate.
  - exists unknown. split; [exact Hnd|]. split; [exact Hin|].
    rewrite Hout. now destruct unknown.
Qed.

(** ** JitBuildAndBook *)

Lemma concat_prefixAll (sep x : string) (l : list string) :
  String.concat sep (x :: l) = x +:+ prefixAll sep l.
Proof.
  revert x. induction l as [|y l IH]; intros x.
  - simpl. now rewrite str_app_nil_r.
  - change (String.concat sep (x :: y :: l))
      with (x +:+ sep +:+ String.concat sep (y :: l)).
    now rewrite IH.
Qed.

Lemma writeColumnType_loop (l : list string) (ss : stringstream) :
  atEnd ss →
  str (foldl writeColumnType ss l) = str ss +:+ prefixAll ", " l
  ∧ atEnd (foldl writeColumnType ss l).
Proof.
  revert ss. induction l as [|T l IH]; intros ss Hss.
  - split; [simpl; now rewrite str_app_nil_r | exact Hss].
  - change (foldl writeColumnType ss (T :: l))
      with (foldl writeColumnType (ss << ", " << T) l).
    destruct (IH (ss << ", " << T)) as [E1 E2]; [stream_at_end|].
    split; [|exact E2]. rewrite E1.
    stream_str.
    change (prefixAll ", " (T :: l)) with (", " +:+ T +:+ prefixAll ", " l).
    now rewrite !str_app_assoc.
Qed.

Lemma writeColumnName_rest (bl : list string) (m k : nat) (ss : stringstream) :
  1 ≤ k → k + m ≤ length bl → atEnd ss →
  str (foldl (writeColumnName bl) ss (seq k m))
  = str ss +:+ prefixAll ", " (quoted <$> take m (drop k bl))
  ∧ atEnd (foldl (writeColumnName bl) ss (seq k m)).
Proof.
  revert k ss. induction m as [|m IH]; intros k ss Hk Hlen Hss.
  - split; [simpl; now rewrite str_app_nil_r | exact Hss].
  - destruct (lookup_lt_is_Some_2 bl k) as [col Hcol]; [lia|].
    change (foldl (writeColumnName bl) ss (seq k (S m)))
      with (foldl (writeColumnName bl) (writeColumnName bl ss k) (seq (S k) m)).
    assert (Hw : writeColumnName bl ss k = ss << ", " << dquote << col << dquote).
    { unfold writeColumnName. rewrite (list_lookup_total_correct _ _ _ Hcol).
      destruct k; [lia | reflexivity]. }
    rewrite Hw.
    destruct (IH (S k) (ss << ", " << dquote << col << dquote)) as [E1 E2];
      [lia | lia | stream_at_end |].
    split; [|exact E2]. rewrite E1.
    stream_str.
    rewrite (drop_S _ _ _ Hcol). rewrite firstn_cons, fmap_cons.
    change (prefixAll ", " (quoted col :: (quoted <$> take m (drop (S k) bl))))
      with (", " +:+ quoted col
            +:+ prefixAll ", " (quoted <$> take m (drop (S k) bl))).
    unfold quoted. now rewrite !str_app_assoc.
Qed.

Lemma writeColumnName_loop (bl : list string) (ss : stringstream) :
  atEnd ss →
  str (foldl (writeColumnName bl) ss (seq 0 (length bl)))
  = str ss +:+ String.concat ", " (quoted <$> bl)
  ∧ atEnd (foldl (writeColumnName bl) ss (seq 0 (length bl))).
Proof.
  intros Hss. destruct bl as [|b bl'].
  - split; [simpl; now rewrite str_app_nil_r | exact Hss].
  - change (foldl (writeColumnName (b :: bl')) ss (seq 0 (length (b :: bl'))))
      with (foldl (writeColumnName (b :: bl')) (ss << dquote << b << dquote)
              (seq 1 (length bl'))).
    destruct (writeColumnName_rest (b :: bl') (length bl') 1
                (ss << dquote << b << dquote)) as [E1 E2];
      [lia | simpl; lia | stream_at_end |].
    split; [|exact E2]. rewrite E1.
    stream_str.
    rewrite fmap_cons, concat_prefixAll.
    change (drop 1 (b :: bl')) with bl'. rewrite firstn_all.
    unfold quoted. now rewrite !str_app_assoc.
Qed.

Section JitBuildAndBook_facts.
Context {FW : Framework}.
Variables (bl : list string) (tree : option TTree).
Variables (customColumns : gmap string TCustomColumnBase) (ds : option TDataSource).

Let tmpBranchPtrs :=
  foldl (findTmpBranch bl customColumns)
        (replicate (length bl) None) (seq 0 (length bl)).

Lemma findTmpBranch_loop (k : nat) :
  k ≤ length bl →
  foldl (findTmpBranch bl customColumns) (replicate (length bl) None) (seq 0 k)
  = ((λ col, customColumns !! col) <$> take k bl)
    ++ replicate (length bl - k) None.
Proof.
  induction k as [|k IH]; intros Hk.
  - simpl. now rewrite Nat.sub_0_r.
  - rewrite seq_S, foldl_app. simpl. rewrite IH by lia.
    destruct (lookup_lt_is_Some_2 bl k) as [col Hcol]; [lia|].
    unfold findTmpBranch. rewrite (list_lookup_total_correct _ _ _ Hcol).
    rewrite (take_S_r _ _ _ Hcol), fmap_app. simpl.
    replace (length bl - k) with (S (length bl - S k)) by lia.
    simpl. rewrite <- (assoc_L (++)). simpl.
    destruct (customColumns !! col) as [tmpBranch|] eqn:E; [|reflexivity].
    assert (Hlen : length ((λ col, customColumns !! col) <$> take k bl) = k).
    { rewrite length_fmap, length_take. lia. }
    rewrite <- Hlen at 1.
    rewrite insert_app_r_alt by lia. now rewrite Nat.sub_diag.
Qed.

Lemma tmpBranchPtrs_lookup (i : nat) (col : string) :
  bl !! i = Some col → tmpBranchPtrs !!! i = customColumns !! col.
Proof.
  intros Hcol. unfold tmpBranchPtrs. rewrite findTmpBranch_loop by lia.
  rewrite Nat.sub_diag, firstn_all. simpl. rewrite app_nil_r.
  apply list_lookup_total_correct. now rewrite list_lookup_fmap, Hcol.
Qed.

(** A column whose type resolves to a non-empty name. *)
Let resolves (col T : string) : Prop :=
  ColumnName2ColumnTypeName col tree (customColumns !! col) ds = Ok T
  ∧ T ≠ EmptyString.

Lemma guessColumnTypes_resolved (types : list string) (m k : nat) :
  Forall2 resolves bl types → k + m = length bl →
  guessColumnTypes bl tree tmpBranchPtrs ds (seq k m)
    (take k types ++ replicate m EmptyString)
  = Ok types.
Proof.
  intros Hres. pose proof (Forall2_length _ _ _ Hres) as Hlen.
  revert k. induction m as [|m IH]; intros k Hk.
  - simpl. rewrite app_nil_r. rewrite take_ge by lia. reflexivity.
  - destruct (lookup_lt_is_Some_2 bl k) as [col Hcol]; [lia|].
    destruct (Forall2_lookup_l _ _ _ _ _ Hres Hcol) as (T & HT & HcolT & HTne).
    cbn [seq guessColumnTypes].
    rewrite (list_lookup_total_correct _ _ _ Hcol), (tmpBranchPtrs_lookup _ _ Hcol).
    rewrite HcolT.
    change (Ok T ≫= ?f) with (f T). cbv beta.
    destruct T as [|c T']; [congruence|]. cbn [empty].
    assert (Hlk : length (take k types) = k) by (rewrite length_take; lia).
    cbn [replicate].
    rewrite insert_app_r_alt by (rewrite Hlk; lia).
    rewrite Hlk, Nat.sub_diag.
    change (<[0:=String c T']> (EmptyString :: replicate m EmptyString))
      with (String c T' :: replicate m EmptyString).
    replace (take k types ++ String c T' :: replicate m EmptyString)
      with (take (S k) types ++ replicate m EmptyString).
    + apply IH. lia.
    + rewrite (take_S_r _ _ _ HT), <- (assoc_L (++)). reflexivity.
Qed.

Lemma guessColumnTypes_empty (indices : list nat) (acc : list string) :
  (∃ i, i ∈ indices
        ∧ ColumnName2ColumnTypeName (bl !!! i) tree (tmpBranchPtrs !!! i) ds
          = Ok EmptyString) →
  throws (guessColumnTypes bl tree tmpBranchPtrs ds indices acc).
Proof.
  revert acc. induction indices as [|j indices IH]; intros acc (i & Hi & Hty).
  - now apply elem_of_nil in Hi.
  - cbn [guessColumnTypes].
    destruct (ColumnName2ColumnTypeName (bl !!! j) tree (tmpBranchPtrs !!! j) ds)
      as [T|e] eqn:Ej.
    + change (Ok T ≫= ?f) with (f T). cbv beta.
      destruct T as [|c T']; cbn [empty]; [eexists; reflexivity|].
      apply IH. apply elem_of_cons in Hi as [->|Hi].
      * rewrite Ej in Hty. discriminate.
      * now exists i.
    + exists e. reflexivity.
Qed.
End JitBuildAndBook_facts.

(** C5: when the type of every input column resolves to a non-empty name
    and both type identities are registered, [JitBuildAndBook] returns the
    call of [CallBuildAndBook] with the action type and then one type per
    column, in the order of the list, as type arguments, and with the typed
    previous node, the quoted column names in order, the number of slots
    and the typed result pointer as arguments.  It throws when a column has
    an empty type name or a type identity is not registered.  In the
    scenario of the spec the type arguments are HistoAction, double and
    double, the slot count is 4 and both column names are passed. *)
Theorem JitBuildAndBook_call {FW : Framework} (bl : list string)
    (prevNodeTypename : string) (prevNode : Z) (art at_ : type_info)
    (rOnHeap : Z) (tree : option TTree) (nSlots : Z)
    (customColumns : gmap string TCustomColumnBase) (ds : option TDataSource) :
  let call := JitBuildAndBook bl prevNodeTypename prevNode art at_ rOnHeap
                tree nSlots customColumns ds in
  let typeOf := λ col, ColumnName2ColumnTypeName col tree (customColumns !! col) ds in
  (∀ columnTypeNames actionResultTypeName actionTypeName,
     Forall2 (λ col T, typeOf col = Ok T ∧ T ≠ EmptyString) bl columnTypeNames →
     TClass_GetClass art = Some actionResultTypeName →
     TClass_GetClass at_ = Some actionTypeName →
     call = Ok (buildAndBookCall actionTypeName columnTypeNames prevNodeTypename
                  prevNode bl nSlots actionResultTypeName rOnHeap))
  ∧ ((∃ col, col ∈ bl ∧ typeOf col = Ok EmptyString) → throws call)
  ∧ (TClass_GetClass art = None → throws call)
  ∧ (TClass_GetClass at_ = None → throws call)
  ∧ JitBuildAndBook (FW := sampleFramework) ["pt"; "eta"] "FilterNode_7" 8000
      "TH1D" "HistoAction" 9000 None 4 ∅ None
    = Ok ("ROOT::Internal::TDF::CallBuildAndBook<HistoAction, double, double>"
          +:+ "(*reinterpret_cast<FilterNode_7*>(0x1f40), {"
          +:+ quoted "pt" +:+ ", " +:+ quoted "eta"
          +:+ "}, 4, reinterpret_cast<TH1D*>(0x2328));").
Proof.
  intros call typeOf.
  assert (Hthrow : ∀ e (k : list string → result string),
            throws (Throw e ≫= k)) by (intros e k; now exists e).
  split; [|split; [|split; [|split]]].
  - intros types artName atName Hres Hart Hat. unfold call, JitBuildAndBook.
    pose proof (guessColumnTypes_resolved bl tree customColumns ds types
                  (length bl) 0 Hres eq_refl) as Hg.
    change (take 0 types ++ ?x) with x in Hg. rewrite Hg.
    change (Ok types ≫= ?f) with (f types). cbv beta. rewrite Hart, Hat.
    f_equal.
    set (s1 := stringstream_new << "ROOT::Internal::TDF::CallBuildAndBook"
               << "<" << atName).
    assert (H1 : atEnd s1) by (unfold s1; stream_at_end).
    destruct (writeColumnType_loop types s1 H1) as [E2 H2].
    set (s2 := foldl writeColumnType s1 types) in *.
    set (s3 := s2 << ">(*reinterpret_cast<" << prevNodeTypename << "*>("
               << show_pointer prevNode << "), {").
    assert (H3 : atEnd s3) by (unfold s3; stream_at_end).
    destruct (writeColumnName_loop bl s3 H3) as [E4 H4].
    set (s4 := foldl (writeColumnName bl) s3 (seq 0 (length bl))) in *.
    stream_str.
    rewrite E4. unfold s3. stream_str.
    rewrite E2. unfold s1. stream_str.
    unfold buildAndBookCall, callExpression.
    rewrite concat_prefixAll.
    change (String.concat ", " [?a; ?b; ?c; ?d])
      with (a +:+ ", " +:+ b +:+ ", " +:+ c +:+ ", " +:+ d).
    rewrite !str_app_assoc. reflexivity.
  - intros (col & Hin & Hty). unfold call, JitBuildAndBook.
    apply list_elem_of_lookup in Hin as [i Hi].
    destruct (guessColumnTypes_empty bl tree customColumns ds (seq 0 (length bl))
                (replicate (length bl) EmptyString)) as [e He].
    + exists i. split.
      * apply elem_of_seq. apply lookup_lt_Some in Hi. lia.
      * rewrite (list_lookup_total_correct _ _ _ Hi).
        rewrite (tmpBranchPtrs_lookup _ _ _ _ Hi). exact Hty.
    + rewrite He. apply Hthrow.
  - intros Hart. unfold call, JitBuildAndBook.
    destruct (guessColumnTypes _ _ _ _ _ _) as [types|e]; [|apply Hthrow].
    change (Ok types ≫= ?f) with (f types). cbv beta. rewrite Hart.
    eexists; reflexivity.
  - intros Hat. unfold call, JitBuildAndBook.
    destruct (guessColumnTypes _ _ _ _ _ _) as [types|e]; [|apply Hthrow].
    change (Ok types ≫= ?f) with (f types). cbv beta. rewrite Hat.
    destruct (TClass_GetClass art); eexists; reflexivity.
  - vm_compute. reflexivity.
Qed.

(** ** JitTransformation: running the steps *)

Section JitTransformation_facts.
Context {FW : Framework} {IP : Interpreter}.

Lemma bind_run {A B} (m : M A) (k : A → M B) (w : World) :
  (m ≫= k) w
  = match m w with
    | (Ok a, w') => k a w'
    | (Throw e, w') => (Throw e, w')
    end.
Proof. reflexivity. Qed.

Lemma keepsCounter_bind {A B} (m : M A) (k : A → M B) :
  keepsCounter m → (∀ a, keepsCounter (k a)) → keepsCounter (m ≫= k).
Proof.
  intros Hm Hk w. rewrite bind_run. specialize (Hm w).
  destruct (m w) as [[a|e] w']; simpl in Hm.
  - destruct (Hk a w') as [E1 E2]. rewrite E1, E2. exact Hm.
  - exact Hm.
Qed.

Lemma keepsCounter_ret {A} (a : A) : keepsCounter (mret a).
Proof. intros w. split; reflexivity. Qed.

Lemma keepsCounter_throw {A} (e : exception) : keepsCounter (throw (A := A) e).
Proof. intros w. split; reflexivity. Qed.

Lemma keepsCounter_liftResult {A} (r : result A) : keepsCounter (liftResult r).
Proof. intros w. split; reflexivity. Qed.

Lemma keepsCounter_ProcessLine (line : string) :
  keepsCounter (gInterpreter_ProcessLine line).
Proof.
  intros w. unfold gInterpreter_ProcessLine.
  destruct (ProcessLine line (gInterpreter w)). split; reflexivity.
Qed.

Lemma keepsCounter_Declare (src : string) :
  keepsCounter (gInterpreter_Declare src).
Proof.
  intros w. unfold gInterpreter_Declare.
  destruct (TInterpreter_Declare src (gInterpreter w)). split; reflexivity.
Qed.

Lemma keepsCounter_Calc (line : string) : keepsCounter (gInterpreter_Calc line).
Proof.
  intros w. unfold gInterpreter_Calc.
  destruct (Calc line (gInterpreter w)) as [[retVal code] interp].
  split; reflexivity.
Qed.

Lemma keepsCounter_declarationStep nsName usedBranches tmpBookedBranches tree ds
    ss usedBranchesTypes :
  keepsCounter (declarationStep nsName usedBranches tmpBookedBranches tree ds
                  ss usedBranchesTypes).
Proof.
  unfold declarationStep. apply keepsCounter_bind.
  - apply keepsCounter_liftResult.
  - intros [ss' types]. apply keepsCounter_bind.
    + apply keepsCounter_ProcessLine.
    + intros code. destruct (negb (kNoError =? code)%Z).
      * apply keepsCounter_throw.
      * apply keepsCounter_ret.
Qed.

Lemma keepsCounter_validationStep nsName expression ss :
  keepsCounter (validationStep nsName expression ss).
Proof.
  unfold validationStep. apply keepsCounter_bind.
  - apply keepsCounter_Declare.
  - intros ok. destruct (negb ok).
    + apply keepsCounter_throw.
    + apply keepsCounter_ret.
Qed.

Lemma keepsCounter_invocationStep methodName ss :
  keepsCounter (invocationStep methodName ss).
Proof.
  unfold invocationStep. apply keepsCounter_bind.
  - apply keepsCounter_Calc.
  - intros [retVal code].
    destruct (negb (kNoError =? code)%Z || (retVal =? 0)%Z).
    + apply keepsCounter_throw.
    + apply keepsCounter_ret.
Qed.

(** Every invocation, whatever its arguments and its outcome, synthesizes
    the scope name of the current counter and increments the counter. *)
Lemma invoke_counter (c : JitCall) (w : World) :
  iNs (invoke c w).2 = ((iNs w + 1) mod 2 ^ 32)%Z
  ∧ scopes (invoke c w).2 = scopes w ++ ["__tdf_" +:+ show_unsigned (iNs w)].
Proof.
  unfold invoke, JitTransformation. rewrite bind_run.
  cbn [synthesizeScopeName].
  match goal with
  | |- context [ mbind ?k ?m ?w' ] =>
      assert (Hk : keepsCounter (mbind k m)); [|destruct (Hk w') as [E1 E2]]
  end.
  - apply keepsCounter_bind.
    + destruct (negb _).
      * apply keepsCounter_declarationStep.
      * apply keepsCounter_ret.
    + intros [ss' types]. apply keepsCounter_bind.
      * apply keepsCounter_validationStep.
      * intros ss''. apply keepsCounter_invocationStep.
  - rewrite E1, E2. cbn [iNs scopes].
    stream_str. split; reflexivity.
Qed.

Lemma declarationStep_run nsName usedBranches tmpBookedBranches tree ds ss
    usedBranchesTypes (w : World) :
  let run := declarationStep nsName usedBranches tmpBookedBranches tree ds ss
               usedBranchesTypes w in
  (∃ e, run.1 = Throw e ∧ submitted run.2 = submitted w)
  ∨ ∃ decl code,
      submitted run.2 = submitted w ++ [SubmittedProcessLine decl code]
      ∧ ((code ≠ kNoError
          ∧ ∃ msg, run.1 = Throw (runtime_error msg) ∧ includes msg decl)
         ∨ (code = kNoError ∧ ∃ a, run.1 = Ok a)).
Proof.
  unfold declarationStep. cbv zeta. rewrite bind_run. unfold liftResult.
  destruct (declareVariables _ _ _ _ _ _) as [[ss' types]|e].
  - right. rewrite bind_run. unfold gInterpreter_ProcessLine.
    destruct (ProcessLine _ _) as [code interp].
    exists (str (ss' << "}")), code.
    destruct (Z.eqb_spec kNoError code) as [E|E]; cbn [negb].
    + split; [reflexivity|]. right. split; [congruence|]. eexists. reflexivity.
    + split; [reflexivity|]. left. split; [congruence|]. eexists.
      split; [reflexivity|].
      apply includes_app_r, includes_app_l, includes_refl.
  - left. exists e. split; reflexivity.
Qed.

Lemma validationStep_run nsName expression ss (w : World) :
  let run := validationStep nsName expression ss w in
  ∃ src ok,
    submitted run.2 = submitted w ++ [SubmittedDeclare src ok]
    ∧ (if ok then ∃ ss', run.1 = Ok ss'
       else ∃ msg, run.1 = Throw (runtime_error msg) ∧ includes msg src).
Proof.
  unfold validationStep. cbv zeta. rewrite bind_run.
  unfold gInterpreter_Declare.
  destruct (TInterpreter_Declare _ _) as [[|] interp]; cbn [negb].
  - eexists _, true. split; [reflexivity|]. eexists. reflexivity.
  - eexists _, false. split; [reflexivity|]. eexists. split; [reflexivity|].
    apply includes_app_l, includes_refl.
Qed.

Lemma invocationStep_run methodName ss (w : World) :
  ∃ retVal code,
    submitted (invocationStep methodName ss w).2
    = submitted w ++ [SubmittedCalc (str ss) retVal code].
Proof.
  unfold invocationStep. rewrite bind_run. unfold gInterpreter_Calc.
  destruct (Calc _ _) as [[retVal code] interp]. exists retVal, code.
  destruct (negb (kNoError =? code)%Z || (retVal =? 0)%Z); reflexivity.
Qed.

(** The submissions of an invocation follow the protocol. *)
Lemma JitTransformation_protocol thisPtr methodName interfaceTypeName name
    expression branches customColumns tmpBookedBranches tree returnTypeName ds
    (w : World) :
  let run := JitTransformation thisPtr methodName interfaceTypeName name
               expression branches customColumns tmpBookedBranches tree
               returnTypeName ds w in
  ∃ new, submitted run.2 = submitted w ++ new ∧ protocol kNoError run.1 new.
Proof.
  unfold JitTransformation. cbv zeta. rewrite bind_run.
  cbn [synthesizeScopeName].
  set (usedBranches := FindUsedColumnNames _ _ _ _ _).
  set (nsName := str _). set (ss0 := set_str _ _).
  match goal with |- context [ mbind _ _ ?w' ] => set (w1 := w') end.
  assert (Hw1 : submitted w1 = submitted w) by reflexivity.
  rewrite bind_run. rewrite <- Hw1.
  assert (Hvalid : ∀ pre (ss : stringstream) (types : list string) (w2 : World),
    declared kNoError pre → submitted w2 = submitted w1 ++ pre →
    let run := (validationStep nsName expression ss
                ≫= λ ss1, invocationStep methodName
                     (buildInvocation thisPtr methodName interfaceTypeName name
                        (str (buildLambda types usedBranches expression ss1))
                        returnTypeName usedBranches
                        (negb (vector_empty usedBranches))
                        (buildLambda types usedBranches expression ss1))) w2 in
    ∃ new, submitted run.2 = submitted w1 ++ new ∧ protocol kNoError run.1 new).
  { intros pre ss types w2 Hpre Hw2. cbv zeta. rewrite bind_run.
    destruct (validationStep_run nsName expression ss w2)
      as (src & ok & Hs & Hr).
    destruct (validationStep nsName expression ss w2) as [r3 w3].
    cbn [fst snd] in Hs, Hr. destruct ok.
    - destruct Hr as [ss' ->].
      match goal with
      | |- context [ invocationStep ?m ?s ?w' ] =>
          destruct (invocationStep_run m s w') as (retVal & code & Hc);
          destruct (invocationStep m s w') as [r4 w4]
      end.
      cbn [fst snd] in Hc |- *. eexists. split.
      + rewrite Hc, Hs, Hw2, <- !(assoc_L (++)). reflexivity.
      + now apply protocol_invocation.
    - destruct Hr as (msg & -> & Hinc). cbn [fst snd]. eexists. split.
      + rewrite Hs, Hw2, <- !(assoc_L (++)). reflexivity.
      + eapply protocol_validation; eauto. }
  destruct (negb (vector_empty usedBranches)).
  - destruct (declarationStep_run nsName usedBranches tmpBookedBranches tree ds
                ss0 [] w1) as [(e & Hr & Hs)|(decl & code & Hs & Hcase)];
      destruct (declarationStep _ _ _ _ _ _ _ w1) as [r2 w2];
      cbn [fst snd] in *.
    + subst r2. exists []. rewrite app_nil_r. split; [exact Hs|].
      now eapply protocol_types.
    + destruct Hcase as [(Hne & msg & -> & Hinc)|(-> & [ss' types] & ->)].
      * eexists. split; [exact Hs|]. eapply protocol_declaration; eauto.
      * apply (Hvalid [SubmittedProcessLine decl kNoError]); [|exact Hs].
        right. now exists decl.
  - cbn [mret M_ret]. apply (Hvalid []); [now left|]. now rewrite app_nil_r.
Qed.
End JitTransformation_facts.

(** C6: what an invocation submits extends the earlier submissions; when
    the declaration of the variables is answered with an error code, or the
    declaration of the expression is refused, the invocation throws an error
    whose message includes the submitted source, and no call was submitted
    for execution. *)
Theorem JitTransformation_failure {FW : Framework} {IP : Interpreter} (thisPtr : Z)
    (methodName interfaceTypeName name expression : string)
    (branches : option (list string)) (customColumns : list string)
    (tmpBookedBranches : gmap string TCustomColumnBase) (tree : option TTree)
    (returnTypeName : string) (ds : option TDataSource) (w : World) :
  let run := JitTransformation thisPtr methodName interfaceTypeName name
               expression branches customColumns tmpBookedBranches tree
               returnTypeName ds w in
  ∃ new,
    submitted run.2 = submitted w ++ new
    ∧ (∀ line code,
         SubmittedProcessLine line code ∈ new → code ≠ kNoError →
         (∃ msg, run.1 = Throw (runtime_error msg) ∧ includes msg line)
         ∧ Forall (λ s, ¬ isCalc s) new)
    ∧ (∀ src,
         SubmittedDeclare src false ∈ new →
         (∃ msg, run.1 = Throw (runtime_error msg) ∧ includes msg src)
         ∧ Forall (λ s, ¬ isCalc s) new).
Proof.
  intros run.
  destruct (JitTransformation_protocol thisPtr methodName interfaceTypeName name
              expression branches customColumns tmpBookedBranches tree
              returnTypeName ds w) as (new & Hs & Hp).
  fold run in Hs, Hp. exists new. split; [exact Hs|].
  destruct Hp as [e He|decl code msg Hne Hr Hinc|pre src msg Hpre Hr Hinc
                  |pre src line retVal code Hpre].
  - split; intros; exfalso; eapply not_elem_of_nil; eauto.
  - split.
    + intros line c Hin _. apply list_elem_of_singleton in Hin.
      injection Hin as -> ->. split; [now exists msg|].
      repeat constructor. now intros [].
    + intros src Hin. apply list_elem_of_singleton in Hin. discriminate.
  - assert (Hcalc : Forall (λ s, ¬ isCalc s) (pre ++ [SubmittedDeclare src false])).
    { apply Forall_app. split; [|repeat constructor; now intros []].
      destruct Hpre as [->|[decl ->]]; repeat constructor; now intros []. }
    split.
    + intros line c Hin Hc. exfalso.
      apply elem_of_app in Hin as [Hin|Hin].
      * destruct Hpre as [->|[decl ->]].
        -- now apply elem_of_nil in Hin.
        -- apply list_elem_of_singleton in Hin. congruence.
      * apply list_elem_of_singleton in Hin. discriminate.
    + intros src' Hin. split; [|exact Hcalc].
      apply elem_of_app in Hin as [Hin|Hin].
      * destruct Hpre as [->|[decl ->]].
        -- now apply elem_of_nil in Hin.
        -- apply list_elem_of_singleton in Hin. discriminate.
      * apply list_elem_of_singleton in Hin. injection Hin as ->.
        now exists msg.
  - split.
    + intros l c Hin Hc. exfalso.
      apply elem_of_app in Hin as [Hin|Hin].
      * destruct Hpre as [->|[decl ->]].
        -- now apply elem_of_nil in Hin.
        -- apply list_elem_of_singleton in Hin. congruence.
      * apply elem_of_cons in Hin as [Hin|Hin]; [discriminate|].
        apply list_elem_of_singleton in Hin. discriminate.
    + intros src' Hin. exfalso.
      apply elem_of_app in Hin as [Hin|Hin].
      * destruct Hpre as [->|[decl ->]].
        -- now apply elem_of_nil in Hin.
        -- apply list_elem_of_singleton in Hin. discriminate.
      * apply elem_of_cons in Hin as [Hin|Hin]; [discriminate|].
        apply list_elem_of_singleton in Hin. discriminate.
Qed.

(** ** The counter of the scope names *)

Lemma show_unsigned_inj (a b : Z) :
  (0 ≤ a)%Z → (0 ≤ b)%Z → show_unsigned a = show_unsigned b → a = b.
Proof.
  intros Ha Hb E. unfold show_unsigned in E.
  apply (f_equal DecimalString.NilEmpty.uint_of_string) in E.
  rewrite !DecimalString.NilEmpty.usu in E. injection E as E.
  apply DecimalN.Unsigned.to_uint_inj in E. now apply Z2N.inj.
Qed.

Section Counter_facts.
Context {FW : Framework} {IP : Interpreter}.
Variables (calls : N → JitCall) (interp : TInterpreter).

Let w0 := initialWorld interp.

Lemma worldAfter_succ (k : N) :
  worldAfter calls w0 (N.succ k)
  = (invoke (calls k) (worldAfter calls w0 k)).2.
Proof. unfold worldAfter. now rewrite N.peano_rect_succ. Qed.

(** After [k] invocations the counter is [k] modulo [2^32]. *)
Lemma worldAfter_iNs (k : N) :
  iNs (worldAfter calls w0 k) = (Z.of_N k mod 2 ^ 32)%Z.
Proof.
  induction k as [|k IH] using N.peano_ind.
  - reflexivity.
  - rewrite worldAfter_succ.
    destruct (invoke_counter (calls k) (worldAfter calls w0 k)) as [E _].
    rewrite E, IH, N2Z.inj_succ. unfold Z.succ.
    now rewrite Zplus_mod_idemp_l.
Qed.

Lemma scopeOfInvocation_name (k : N) :
  scopeOfInvocation calls w0 k
  = Some ("__tdf_" +:+ show_unsigned (Z.of_N k mod 2 ^ 32)).
Proof.
  unfold scopeOfInvocation. rewrite worldAfter_succ.
  destruct (invoke_counter (calls k) (worldAfter calls w0 k)) as [_ E].
  rewrite E, last_snoc, worldAfter_iNs. reflexivity.
Qed.

Lemma scopeOfInvocation_eq (i j : N) :
  scopeOfInvocation calls w0 i = scopeOfInvocation calls w0 j
  ↔ (i mod 2 ^ 32 = j mod 2 ^ 32)%N.
Proof.
  rewrite !scopeOfInvocation_name. split.
  - intros E. injection E as E. apply show_unsigned_inj in E.
    + apply N2Z.inj. rewrite !N2Z.inj_mod. exact E.
    + apply Z.mod_pos_bound. lia.
    + apply Z.mod_pos_bound. lia.
  - intros E. apply (f_equal Z.of_N) in E. rewrite !N2Z.inj_mod in E.
    change (Z.of_N (2 ^ 32)) with (2 ^ 32)%Z in E. now rewrite E.
Qed.
End Counter_facts.

(** X18: two invocations of a sequence synthesize the same scope name
    exactly when their positions differ by a multiple of [2^32], the range
    of the counter; so the names of the first [2^32] invocations are
    pairwise distinct. *)
Theorem scope_names_distinct {FW : Framework} {IP : Interpreter} (calls : N → JitCall)
    (interp : TInterpreter) :
  (∀ i j : N,
     scopeOfInvocation calls (initialWorld interp) i
     = scopeOfInvocation calls (initialWorld interp) j
     ↔ (i mod 2 ^ 32 = j mod 2 ^ 32)%N)
  ∧ (∀ i j : N,
       (i < 2 ^ 32)%N → (j < 2 ^ 32)%N → i ≠ j →
       scopeOfInvocation calls (initialWorld interp) i
       ≠ scopeOfInvocation calls (initialWorld interp) j).
Proof.
  split.
  - intros i j. apply scopeOfInvocation_eq.
  - intros i j Hi Hj Hne E. apply scopeOfInvocation_eq in E.
    rewrite !N.mod_small in E by assumption. contradiction.
Qed.

(** C7: the counter of the scopes is an [unsigned int] and wraps.  In
    every process, whatever the arguments of the invocations, the
    invocation number [2^32] (counted from 0) synthesizes the scope name of
    the first invocation, [__tdf_0], again: the index of the names is not
    monotonically increasing, and two invocations declare the same scope. *)
Theorem scope_name_wraps {FW : Framework} {IP : Interpreter} (calls : N → JitCall)
    (interp : TInterpreter) :
  scopeOfInvocation calls (initialWorld interp) 0 = Some "__tdf_0"
  ∧ scopeOfInvocation calls (initialWorld interp) 4294967296 = Some "__tdf_0"
  ∧ iNs (worldAfter calls (initialWorld interp) 4294967296) = 0%Z.
Proof.
  rewrite !scopeOfInvocation_name, worldAfter_iNs.
  split; [|split]; reflexivity.
Qed.

(** C7: on the sample framework the scope names of a sequence of
    invocations are not pairwise distinct: the first invocation and the
    invocation number [2^32] synthesize the same scope name. *)
Lemma scope_names_collide :
  ¬ ∀ i j : N,
      i ≠ j →
      scopeOfInvocation (λ _, sampleCall "x > 0") sampleWorld i
      ≠ scopeOfInvocation (λ _, sampleCall "x > 0") sampleWorld j.
Proof.
  intros Hall. apply (Hall 0%N 4294967296%N); [discriminate|].
  apply (scopeOfInvocation_eq (FW := sampleFramework) (IP := sampleInterpreter)).
  reflexivity.
Qed.

(** ** Expressions that use no column *)

Lemma FindUsedColumnNames_none Index expression branches customColumns dsColumns :
  Forall (λ n, nameMatches Index (" " +:+ expression +:+ " ") n = false)
    (customColumns ++ branchNames branches ++ dsColumns) →
  FindUsedColumnNames Index expression branches customColumns dsColumns = [].
Proof.
  intros Hall. apply Forall_app in Hall as [Hc Hall].
  apply Forall_app in Hall as [Hb Hd].
  assert (Hfilter : ∀ l,
    Forall (λ n, nameMatches Index (" " +:+ expression +:+ " ") n = false) l →
    filter (λ n, nameMatches Index (" " +:+ expression +:+ " ") n = true) l = []).
  { intros l Hl. induction Hl as [|n l Hn Hl IH]; [reflexivity|].
    rewrite filter_cons, decide_False by congruence. exact IH. }
  rewrite FindUsedColumnNames_parts. cbv zeta.
  rewrite (Hfilter _ Hc), (Hfilter _ Hb). cbn [app].
  induction Hd as [|n l Hn Hl IH]; [reflexivity|].
  cbn [newFromDs]. rewrite Hn. exact IH.
Qed.

Section NoColumns_facts.
Context {FW : Framework} {IP : Interpreter}.


End NoColumns_facts.


(** ** Runs on the sample framework *)

(** Two default names are taken when none is supplied; one supplied name
    for two requested columns is refused. *)
Example GetValidatedColumnNames_defaults :
  GetValidatedColumnNames (FW := sampleFramework)
    {| GetDefaultColumnNames := ["a"; "b"; "c"]; GetTree := None |}
    2 [] ["a"; "b"; "c"] None
  = Ok ["a"; "b"]
  ∧ throws (GetValidatedColumnNames (FW := sampleFramework)
              {| GetDefaultColumnNames := ["a"; "b"; "c"]; GetTree := None |}
              2 ["q"] ["a"; "b"; "c"] None).
Proof. split; [reflexivity | eexists; reflexivity]. Qed.

Example GetValidatedColumnNames_messages :
  GetValidatedColumnNames (FW := sampleFramework)
    {| GetDefaultColumnNames := []; GetTree := Some (["a"] : @TTree sampleFramework) |}
    2 ["q"; "a"] [] None
  = Throw (runtime_error "Unknown column: q")
  ∧ GetValidatedColumnNames (FW := sampleFramework)
      {| GetDefaultColumnNames := []; GetTree := Some (["a"] : @TTree sampleFramework) |}
      3 ["q"; "a"; "r"] [] None
    = Throw (runtime_error "Unknown columns: q,r").
Proof. split; reflexivity. Qed.

(** A rejected declaration of the variables: the error carries the
    declaration and the error code, and nothing else was submitted. *)
Example JitTransformation_rejected :
  let decl := "namespace __tdf_0 {" +:+ newline +:+ "double x;" +:+ newline +:+ "}" in
  invoke (IP := rejectingInterpreter) (sampleCall "x > 0")
    (initialWorld (IP := rejectingInterpreter) (tt : @TInterpreter rejectingInterpreter))
  = (Throw (runtime_error ("Cannot declare these variables:  " +:+ decl
                           +:+ newline +:+ "Interpreter error code is 1.")),
     {| iNs := 1; gInterpreter := (tt : @TInterpreter rejectingInterpreter);
        scopes := ["__tdf_0"];
        submitted := [SubmittedProcessLine decl 1] |}).
Proof. vm_compute. reflexivity. Qed.

(** The theorem on unknown columns at a selection with one unknown name. *)
Lemma GetValidatedColumnNames_unknown_witness :
  let lm := {| GetDefaultColumnNames := ["a"; "b"; "c"];
               GetTree := Some (["a"] : @TTree sampleFramework) |} in
  let call := GetValidatedColumnNames (FW := sampleFramework) lm 2 ["q"; "a"] [] None in
  let known := isKnownColumn (FW := sampleFramework) (GetTree lm) [] [] in
  SelectColumns 2 ["q"; "a"] (GetDefaultColumnNames lm) = Ok ["q"; "a"]
  ∧ (succeeds call ↔ ∀ c, c ∈ ["q"; "a"] → known c = true)
  ∧ ∃ unknown,
      NoDup unknown
      ∧ (∀ c, c ∈ unknown ↔ c ∈ ["q"; "a"] ∧ known c = false)
      ∧ call = match unknown with
               | [] => Ok ["q"; "a"]
               | _ :: _ =>
                   Throw (runtime_error
                            ("Unknown column"
                             +:+ (if length unknown =? 1 then ": " else "s: ")
                             +:+ String.concat "," unknown))
               end.
Proof.
  intros lm call known. split; [reflexivity|].
  apply (GetValidatedColumnNames_unknown (FW := sampleFramework) lm 2
           ["q"; "a"] [] None ["q"; "a"]).
  reflexivity.
Defined.



(** * Further properties *)

(** ** FindUsedColumnNames *)

(** X1: whatever the matching primitive, a name is returned exactly when it
    is one of the custom, dataset or data-source names and the primitive
    finds it in the padded expression; the result is never longer than the
    three lists together. *)
Theorem FindUsedColumnNames_elem Index expression branches customColumns dsColumns :
  (∀ name,
     name ∈ FindUsedColumnNames Index expression branches customColumns dsColumns
     ↔ (name ∈ customColumns ∨ name ∈ branchNames branches ∨ name ∈ dsColumns)
       ∧ nameMatches Index (" " +:+ expression +:+ " ") name = true)
  ∧ length (FindUsedColumnNames Index expression branches customColumns dsColumns)
    ≤ length customColumns + length (branchNames branches) + length dsColumns.
Proof.
  rewrite FindUsedColumnNames_parts. cbv zeta. split.
  - intros name.
    rewrite !elem_of_app, newFromDs_elem, !elem_of_app, !list_elem_of_filter.
    destruct (decide (name ∈ customColumns)); [tauto|].
    destruct (decide (name ∈ branchNames branches)); tauto.
  - rewrite !length_app.
    pose proof (length_filter
                  (λ n, nameMatches Index (" " +:+ expression +:+ " ") n = true)
                  customColumns).
    pose proof (length_filter
                  (λ n, nameMatches Index (" " +:+ expression +:+ " ") n = true)
                  (branchNames branches)).
    match goal with
    | |- context [ newFromDs ?i ?p ?acc ?l ] =>
        pose proof (sublist_length _ _ (newFromDs_sublist i p acc l))
    end.
    lia.
Qed.

(** X2: the result is empty exactly when the primitive finds none of the
    known names; this is the case in which an invocation declares no
    variable. *)
Theorem FindUsedColumnNames_nil_iff Index expression branches customColumns dsColumns :
  FindUsedColumnNames Index expression branches customColumns dsColumns = []
  ↔ Forall (λ n, nameMatches Index (" " +:+ expression +:+ " ") n = false)
      (customColumns ++ branchNames branches ++ dsColumns).
Proof.
  split; [|apply FindUsedColumnNames_none].
  intros Hnil. apply Forall_forall. intros n Hn.
  destruct (nameMatches Index (" " +:+ expression +:+ " ") n) eqn:Em; [|reflexivity].
  exfalso. apply (not_elem_of_nil n). rewrite <- Hnil.
  rewrite FindUsedColumnNames_parts. cbv zeta.
  rewrite !elem_of_app, newFromDs_elem, !elem_of_app, !list_elem_of_filter.
  rewrite !elem_of_app in Hn.
  destruct (decide (n ∈ customColumns)); [tauto|].
  destruct (decide (n ∈ branchNames branches)); tauto.
Qed.

(** ** FindUndefinedDSColumns *)

Lemma found_app (x : string) (v v' : list string) :
  found x (v ++ v') = found x v || found x v'.
Proof.
  induction v as [|y v IH]; simpl; [reflexivity|].
  destruct (String.eqb y x); [reflexivity | exact IH].
Qed.

(** X3: no flag is set exactly when every requested name is defined. *)
Theorem FindUndefinedDSColumns_none (requestedCols definedCols : list string) :
  FindUndefinedDSColumns requestedCols definedCols
  = replicate (length requestedCols) false
  ↔ ∀ col, col ∈ requestedCols → col ∈ definedCols.
Proof.
  rewrite FindUndefinedDSColumns_map.
  induction requestedCols as [|c l IH].
  - split; [intros _ col Hc; now apply elem_of_nil in Hc | reflexivity].
  - rewrite fmap_cons. cbn [length replicate]. split.
    + intros E. injection E as Ec El. pose proof (proj1 IH El) as Hl.
      apply negb_false_iff, found_In, list_elem_of_In in Ec.
      intros col Hcol. apply elem_of_cons in Hcol as [->|Hcol]; auto.
    + intros Hall. f_equal.
      * apply negb_false_iff, found_In, list_elem_of_In, Hall. left.
      * apply (proj2 IH). intros col Hcol. apply Hall. now right.
Qed.

(** X4: the flags of two lists of requested names put together are the
    flags of the first followed by the flags of the second. *)
Theorem FindUndefinedDSColumns_app (requestedCols moreCols definedCols : list string) :
  FindUndefinedDSColumns (requestedCols ++ moreCols) definedCols
  = FindUndefinedDSColumns requestedCols definedCols
    ++ FindUndefinedDSColumns moreCols definedCols.
Proof. rewrite !FindUndefinedDSColumns_map. apply fmap_app. Qed.

(** X5: a name must be defined with respect to two lists of defined names
    put together exactly when it must be with respect to each; so more
    defined names can only clear flags. *)
Theorem FindUndefinedDSColumns_defined_app
    (requestedCols definedCols moreDefinedCols : list string) :
  FindUndefinedDSColumns requestedCols (definedCols ++ moreDefinedCols)
  = zip_with andb (FindUndefinedDSColumns requestedCols definedCols)
      (FindUndefinedDSColumns requestedCols moreDefinedCols).
Proof.
  rewrite !FindUndefinedDSColumns_map.
  induction requestedCols as [|c l IH]; [reflexivity|].
  rewrite !fmap_cons. cbn [zip_with]. f_equal; [|exact IH].
  rewrite found_app. apply negb_orb.
Qed.

(** ** AtLeastOneEmptyString *)

(** X6: two lists put together hold an empty string exactly when one of
    them does. *)
Theorem AtLeastOneEmptyString_app (strings moreStrings : list string) :
  AtLeastOneEmptyString (strings ++ moreStrings)
  = AtLeastOneEmptyString strings || AtLeastOneEmptyString moreStrings.
Proof.
  induction strings as [|s l IH]; simpl; [reflexivity|].
  destruct (empty s); [reflexivity | exact IH].
Qed.

(** ** JitBuildAndBook: errors *)




(** X8: when every column resolves, the result type is looked up before
    the action type: an unregistered result type throws its own error
    whatever the action type is, and an unregistered action type throws
    the other error once the result type is registered. *)
Theorem JitBuildAndBook_type_identities {FW : Framework} (bl : list string)
    (prevNodeTypename : string) (prevNode : Z) (art at_ : type_info)
    (rOnHeap : Z) (tree : option TTree) (nSlots : Z)
    (customColumns : gmap string TCustomColumnBase) (ds : option TDataSource)
    (columnTypeNames : list string) :
  let call := JitBuildAndBook bl prevNodeTypename prevNode art at_ rOnHeap
                tree nSlots customColumns ds in
  Forall2 (λ col T,
             ColumnName2ColumnTypeName col tree (customColumns !! col) ds = Ok T
             ∧ T ≠ EmptyString) bl columnTypeNames →
  (TClass_GetClass art = None →
   call = Throw (runtime_error
                   "An error occurred while inferring the result type of an operation."))
  ∧ (∀ actionResultTypeName,
       TClass_GetClass art = Some actionResultTypeName →
       TClass_GetClass at_ = None →
       call = Throw (runtime_error
                       "An error occurred while inferring the action type of the operation.")).
Proof.
  intros call Hres. unfold call, JitBuildAndBook.
  pose proof (guessColumnTypes_resolved bl tree customColumns ds columnTypeNames
                (length bl) 0 Hres eq_refl) as Hg.
  change (take 0 columnTypeNames ++ ?x) with x in Hg. rewrite Hg.
  change (Ok columnTypeNames ≫= ?f) with (f columnTypeNames). cbv beta.
  split.
  - intros ->. reflexivity.
  - intros r -> ->. reflexivity.
Qed.

Lemma JitBuildAndBook_type_identities_witness :
  Forall2 (λ col T,
             ColumnName2ColumnTypeName (Framework := sampleFramework) col None
               ((∅ : gmap string unit) !! col) None = Ok T
             ∧ T ≠ EmptyString) ["pt"] ["double"]
  ∧ JitBuildAndBook (FW := sampleFramework) ["pt"] "FilterNode_7" 8000
      EmptyString EmptyString 9000 None 4 ∅ None
    = Throw (runtime_error
               "An error occurred while inferring the result type of an operation.").
Proof.
  assert (H : Forall2 (λ col T,
             ColumnName2ColumnTypeName (Framework := sampleFramework) col None
               ((∅ : gmap string unit) !! col) None = Ok T
             ∧ T ≠ EmptyString) ["pt"] ["double"]).
  { repeat constructor. discriminate. }
  split; [exact H|].
  apply (proj1 (JitBuildAndBook_type_identities (FW := sampleFramework) ["pt"]
                  "FilterNode_7" 8000 EmptyString EmptyString 9000 None 4 ∅ None
                  ["double"] H)).
  reflexivity.
Defined.

(** ** String streams: writing over the end of the buffer *)

Lemma str_take_app (p r : string) : str_take (String.length p) (p +:+ r) = p.
Proof. induction p as [|c p IH]; simpl; [now destruct r | now rewrite IH]. Qed.

Lemma str_drop_app (p r : string) (k : nat) :
  str_drop (String.length p + k) (p +:+ r) = str_drop k r.
Proof. induction p as [|c p IH]; simpl; [reflexivity | exact IH]. Qed.

Lemma atEnd_atPos (ss : stringstream) : atEnd ss → atPos ss (str ss) EmptyString.
Proof.
  intros [Hf Hp]. split; [exact Hf|]. split; [|exact Hp].
  now rewrite str_app_nil_r.
Qed.

Lemma atPos_atEnd (ss : stringstream) (before : string) :
  atPos ss before EmptyString → atEnd ss ∧ str ss = before.
Proof.
  intros (Hf & Hs & Hp). rewrite str_app_nil_r in Hs. subst before.
  split; [split; assumption | reflexivity].
Qed.

(** What is written at the put position replaces as many characters of
    what follows it. *)
Lemma put_atPos (ss : stringstream) (before after s : string) :
  atPos ss before after →
  atPos (ss << s) (before +:+ s) (str_drop (String.length s) after).
Proof.
  intros (Hf & Hs & Hp). unfold put. rewrite Hf, Hs, Hp.
  rewrite str_take_app, str_drop_app. split; [reflexivity|]. split.
  - cbn [str]. now rewrite str_app_assoc.
  - cbn [tellp]. now rewrite str_length_app.
Qed.

(** Moving the put position back over the last two characters. *)
Lemma seekp_back (ss : stringstream) (before : string) (c d : ascii) :
  atEnd ss → str ss = before +:+ String c (String d EmptyString) →
  atPos (seekp_cur ss (-2)) before (String c (String d EmptyString)).
Proof.
  intros [Hf Hp] Hs. unfold seekp_cur. rewrite Hf, Hp, Hs.
  rewrite str_length_app. cbn [String.length].
  assert (Hle : ((0 <=? Z.of_nat (String.length before + 2) + -2)
                 && (Z.of_nat (String.length before + 2) + -2
                     <=? Z.of_nat (String.length before + 2)))%Z = true).
  { apply andb_true_iff. split; apply Z.leb_le; lia. }
  rewrite Hle. split; [reflexivity|]. split; [reflexivity|].
  cbn [tellp]. lia.
Qed.

Lemma suffixAll_concat (sep x : string) (l : list string) :
  suffixAll sep (x :: l) = String.concat sep (x :: l) +:+ sep.
Proof.
  revert x. induction l as [|y l IH]; intros x.
  - cbn [suffixAll foldr String.concat]. now rewrite str_app_nil_r.
  - change (suffixAll sep (x :: y :: l)) with (x +:+ sep +:+ suffixAll sep (y :: l)).
    change (String.concat sep (x :: y :: l))
      with (x +:+ sep +:+ String.concat sep (y :: l)).
    rewrite IH. now rewrite !str_app_assoc.
Qed.

(** ** The lambda and the call *)

Lemma writeParameter_loop (types names : list string) (indices : list nat)
    (ss : stringstream) :
  atEnd ss →
  str (foldl (writeParameter types names) ss indices)
  = str ss +:+ suffixAll ", " ((λ i, types !!! i +:+ "& " +:+ names !!! i) <$> indices)
  ∧ atEnd (foldl (writeParameter types names) ss indices).
Proof.
  revert ss. induction indices as [|i l IH]; intros ss Hss.
  - split; [cbn; now rewrite str_app_nil_r | exact Hss].
  - cbn [foldl]. unfold writeParameter at 2 4.
    destruct (IH (ss << types !!! i << "& " << names !!! i << ", ")) as [E1 E2];
      [stream_at_end|].
    split; [|exact E2]. rewrite E1. stream_str. rewrite fmap_cons.
    change (suffixAll ", " (?x :: ?r)) with (x +:+ ", " +:+ suffixAll ", " r).
    now rewrite !str_app_assoc.
Qed.

Lemma parameters_zip (types names : list string) :
  length types ≤ length names →
  (λ i, types !!! i +:+ "& " +:+ names !!! i) <$> seq 0 (length types)
  = zip_with (λ T n, T +:+ "& " +:+ n) types names.
Proof.
  revert names. induction types as [|T types IH]; intros names Hlen.
  - reflexivity.
  - destruct names as [|n names]; [cbn in Hlen; lia|].
    cbn [length seq zip_with]. rewrite fmap_cons. f_equal.
    rewrite <- fmap_S_seq, <- list_fmap_compose.
    rewrite <- IH by (cbn in Hlen; lia). reflexivity.
Qed.

Lemma writeUsedBranch_loop (names : list string) (ss : stringstream) :
  atEnd ss →
  str (foldl writeUsedBranch ss names)
  = str ss +:+ suffixAll ", " (quoted <$> names)
  ∧ atEnd (foldl writeUsedBranch ss names).
Proof.
  revert ss. induction names as [|n l IH]; intros ss Hss.
  - split; [cbn; now rewrite str_app_nil_r | exact Hss].
  - cbn [foldl]. unfold writeUsedBranch at 2 4.
    destruct (IH (ss << dquote << n << (dquote +:+ ", "))) as [E1 E2];
      [stream_at_end|].
    split; [|exact E2]. rewrite E1. stream_str. rewrite fmap_cons.
    change (suffixAll ", " (?x :: ?r)) with (x +:+ ", " +:+ suffixAll ", " r).
    unfold quoted. now rewrite !str_app_assoc.
Qed.

Lemma buildLambda_str (types names : list string) (expression : string)
    (ss : stringstream) :
  fail ss = false → length types ≤ length names →
  str (buildLambda types names expression ss) = lambdaText types names expression
  ∧ atEnd (buildLambda types names expression ss).
Proof.
  intros Hf Hlen. pose proof (atEnd_set_str ss Hf) as H0.
  unfold buildLambda. cbv zeta.
  set (s1 := set_str ss EmptyString << "[](").
  assert (H1 : atEnd s1) by (unfold s1; stream_at_end).
  assert (E1 : str s1 = "[](") by (unfold s1; stream_str; reflexivity).
  destruct (writeParameter_loop types names (seq 0 (length types)) s1 H1)
    as [E2 H2].
  rewrite (parameters_zip _ _ Hlen), E1 in E2.
  set (s2 := foldl (writeParameter types names) s1 (seq 0 (length types))) in *.
  set (params := zip_with (λ T n, T +:+ "& " +:+ n) types names) in *.
  assert (H3 : atPos ((if negb (vector_empty types) then seekp_cur s2 (-2) else s2)
                      << "){ return ")
                 (("[](" +:+ String.concat ", " params) +:+ "){ return ")
                 EmptyString).
  { destruct types as [|T types'].
    - cbn [vector_empty negb]. subst params. cbn [zip_with String.concat].
      cbn [zip_with suffixAll foldr] in E2.
      apply atEnd_atPos in H2. rewrite E2 in H2.
      apply (put_atPos _ _ _ "){ return ") in H2. exact H2.
    - destruct names as [|n names']; [cbn in Hlen; lia|].
      cbn [vector_empty negb]. subst params. cbn [zip_with] in *.
      rewrite suffixAll_concat, <- str_app_assoc in E2.
      pose proof (seekp_back s2 _ _ _ H2 E2) as Hp.
      apply (put_atPos _ _ _ "){ return ") in Hp. exact Hp. }
  apply atPos_atEnd in H3 as [H3 E3].
  split; [|stream_at_end].
  stream_str. rewrite E3. unfold lambdaText. now rewrite !str_app_assoc.
Qed.

(** X9: on a stream that has not failed and with a name for every type,
    the lambda has one reference parameter per column, separated by a
    comma and a space, and nothing after the last one: the comma that the
    loop writes after the last parameter is written over. *)
Theorem buildLambda_text (types names : list string) (expression : string)
    (ss : stringstream) :
  fail ss = false → length types ≤ length names →
  str (buildLambda types names expression ss)
  = "[](" +:+ String.concat ", " (zip_with (λ T n, T +:+ "& " +:+ n) types names)
    +:+ "){ return " +:+ expression +:+ ";}".
Proof. intros Hf Hlen. now apply buildLambda_str. Qed.

Lemma buildLambda_text_witness :
  fail stringstream_new = false ∧ length ["double"; "int"] ≤ length ["x"; "y"]
  ∧ str (buildLambda ["double"; "int"] ["x"; "y"] "x > y" stringstream_new)
    = "[](double& x, int& y){ return x > y;}".
Proof.
  split; [reflexivity|]. split; [cbn; lia|].
  apply (buildLambda_text ["double"; "int"] ["x"; "y"] "x > y" stringstream_new);
    [reflexivity | cbn; lia].
Defined.

Lemma buildInvocation_str {FW : Framework} (thisPtr : Z)
    (methodName interfaceTypeName name filterLambda returnTypeName : string)
    (names : list string) (ss : stringstream) :
  fail ss = false →
  str (buildInvocation thisPtr methodName interfaceTypeName name filterLambda
         returnTypeName names (negb (vector_empty names)) ss)
  = invocationText thisPtr methodName interfaceTypeName name filterLambda
      returnTypeName names.
Proof.
  intros Hf. pose proof (atEnd_set_str ss Hf) as H0.
  unfold buildInvocation. cbv zeta.
  set (target := "ROOT::Experimental::TDF::TInterface<" +:+ returnTypeName +:+ ">").
  set (s1 := set_str ss EmptyString << target << "(((" << interfaceTypeName
             << "*)" << show_pointer thisPtr << ")->" << methodName << "(").
  assert (H1 : atEnd s1) by (unfold s1; stream_at_end).
  set (s2 := if String.eqb methodName "Define"
             then s1 << dquote << name << (dquote +:+ ", ") else s1).
  assert (H2 : atEnd s2) by (unfold s2; destruct (String.eqb _ _); stream_at_end).
  assert (E2 : str s2 = str s1 +:+ (if String.eqb methodName "Define"
                                    then quoted name +:+ ", " else EmptyString)).
  { unfold s2. destruct (String.eqb methodName "Define").
    - stream_str. unfold quoted. now rewrite !str_app_assoc.
    - now rewrite str_app_nil_r. }
  set (s3 := s2 << filterLambda << ", {").
  assert (H3 : atEnd s3) by (unfold s3; stream_at_end).
  destruct (writeUsedBranch_loop names s3 H3) as [E4 H4].
  set (s4 := foldl writeUsedBranch s3 names) in *.
  set (s6 := (if negb (vector_empty names) then seekp_cur s4 (-2) else s4) << "}").
  assert (H6 : ∃ after, (after = EmptyString ∨ after = " ")
               ∧ atPos s6 ((str s3 +:+ String.concat ", " (quoted <$> names)) +:+ "}")
                   after).
  { unfold s6. destruct names as [|n names'].
    - exists EmptyString. split; [now left|]. cbn [vector_empty negb].
      cbn [fmap list_fmap suffixAll foldr String.concat] in *.
      apply atEnd_atPos in H4. rewrite E4 in H4.
      apply (put_atPos _ _ _ "}") in H4. exact H4.
    - exists " ". split; [now right|]. cbn [vector_empty negb].
      rewrite fmap_cons in *. rewrite suffixAll_concat, <- str_app_assoc in E4.
      pose proof (seekp_back s4 _ _ _ H4 E4) as Hp.
      apply (put_atPos _ _ _ "}") in Hp. exact Hp. }
  destruct H6 as (after & Hafter & H6).
  set (s7 := if String.eqb methodName "Filter"
             then s6 << (", " +:+ dquote) << name << dquote else s6).
  assert (H8 : atPos (s7 << "));")
                 (((str s3 +:+ String.concat ", " (quoted <$> names)) +:+ "}")
                  +:+ (if String.eqb methodName "Filter"
                       then ", " +:+ quoted name else EmptyString)
                  +:+ "));") EmptyString).
  { unfold s7. destruct (String.eqb methodName "Filter").
    - apply (put_atPos _ _ _ (", " +:+ dquote)) in H6.
      assert (Hd : str_drop (String.length (", " +:+ dquote)) after = EmptyString)
        by (destruct Hafter as [->| ->]; reflexivity).
      rewrite Hd in H6. apply atPos_atEnd in H6 as [H6 E6].
      assert (Hend : atEnd (s6 << (", " +:+ dquote) << name << dquote << "));"))
        by stream_at_end.
      apply atEnd_atPos in Hend.
      assert (E : str (s6 << (", " +:+ dquote) << name << dquote << "));")
                  = ((str s3 +:+ String.concat ", " (quoted <$> names)) +:+ "}")
                    +:+ (", " +:+ quoted name) +:+ "));").
      { stream_str. rewrite E6. unfold quoted. now rewrite !str_app_assoc. }
      rewrite E in Hend. exact Hend.
    - apply (put_atPos _ _ _ "));") in H6.
      assert (Hd : str_drop (String.length "));") after = EmptyString)
        by (destruct Hafter as [->| ->]; reflexivity).
      rewrite Hd in H6. exact H6. }
  apply atPos_atEnd in H8 as [_ E8]. fold s6 s7. rewrite E8.
  unfold s3. stream_str. rewrite E2. unfold s1. stream_str.
  cbn [set_str str]. unfold invocationText, target.
  rewrite !str_app_assoc. reflexivity.
Qed.

(** X10: on a stream that has not failed, the call names the target type,
    casts the node pointer, calls the method with the new name first for
    Define, then the lambda, then the quoted column names between braces
    with no separator after the last one, then the name last for Filter:
    the separator that the loop writes after the last column name is
    written over by what follows. *)
Theorem buildInvocation_text {FW : Framework} (thisPtr : Z)
    (methodName interfaceTypeName name filterLambda returnTypeName : string)
    (names : list string) (ss : stringstream) :
  fail ss = false →
  str (buildInvocation thisPtr methodName interfaceTypeName name filterLambda
         returnTypeName names (negb (vector_empty names)) ss)
  = "ROOT::Experimental::TDF::TInterface<" +:+ returnTypeName +:+ ">((("
    +:+ interfaceTypeName +:+ "*)" +:+ show_pointer thisPtr +:+ ")->"
    +:+ methodName +:+ "("
    +:+ (if String.eqb methodName "Define" then quoted name +:+ ", "
         else EmptyString)
    +:+ filterLambda +:+ ", {" +:+ String.concat ", " (quoted <$> names) +:+ "}"
    +:+ (if String.eqb methodName "Filter" then ", " +:+ quoted name
         else EmptyString)
    +:+ "));".
Proof. intros Hf. now apply buildInvocation_str. Qed.

Lemma buildInvocation_text_witness :
  fail stringstream_new = false
  ∧ str (buildInvocation (FW := sampleFramework) 8000 "Define" "Node" "z"
           "[](double& x, double& y){ return x + y;}" "Base" ["x"; "y"]
           (negb (vector_empty ["x"; "y"])) stringstream_new)
    = "ROOT::Experimental::TDF::TInterface<Base>(((Node*)0x1f40)->Define("
      +:+ quoted "z" +:+ ", [](double& x, double& y){ return x + y;}, {"
      +:+ quoted "x" +:+ ", " +:+ quoted "y" +:+ "}));".
Proof.
  split; [reflexivity|].
  apply (buildInvocation_text (FW := sampleFramework) 8000 "Define" "Node" "z"
           "[](double& x, double& y){ return x + y;}" "Base" ["x"; "y"]
           stringstream_new).
  reflexivity.
Defined.

(** ** JitTransformation: the whole run *)

Section Run_facts.
Context {FW : Framework} {IP : Interpreter}.

Lemma declareVariables_cases (names : list string)
    (tmpBookedBranches : gmap string TCustomColumnBase) (tree : option TTree)
    (ds : option TDataSource) (ss : stringstream) (acc : list string) :
  atEnd ss →
  (∃ before name after e,
      names = before ++ name :: after
      ∧ Forall (λ n, ∃ T, ColumnName2ColumnTypeName n tree (tmpBookedBranches !! n) ds = Ok T)
          before
      ∧ ColumnName2ColumnTypeName name tree (tmpBookedBranches !! name) ds = Throw e
      ∧ declareVariables names tmpBookedBranches tree ds ss acc = Throw e)
  ∨ (∃ types ss',
        Forall2 (λ n T, ColumnName2ColumnTypeName n tree (tmpBookedBranches !! n) ds = Ok T)
          names types
        ∧ declareVariables names tmpBookedBranches tree ds ss acc
          = Ok (ss', acc ++ types)
        ∧ atEnd ss'
        ∧ str ss'
          = str ss
            +:+ concatAll (zip_with (λ T n, T +:+ " " +:+ n +:+ ";" +:+ newline)
                             types names)).
Proof.
  revert ss acc. induction names as [|n names IH]; intros ss acc Hss.
  - right. exists [], ss. split; [constructor|]. split.
    + cbn. now rewrite app_nil_r.
    + split; [exact Hss|]. cbn. now rewrite str_app_nil_r.
  - cbn [declareVariables].
    destruct (ColumnName2ColumnTypeName n tree (tmpBookedBranches !! n) ds)
      as [T|e] eqn:ET.
    + change (Ok T ≫= ?f) with (f T). cbv beta zeta.
      destruct (IH (ss << T << " " << n << (";" +:+ newline)) (acc ++ [T]))
        as [(before & name & after & e & -> & Hb & He & Hd)
           |(types & ss' & Hres & Hd & Hend & Hstr)]; [stream_at_end| |].
      * left. exists (n :: before), name, after, e.
        split; [reflexivity|]. split; [|split; assumption].
        constructor; [now exists T | exact Hb].
      * right. exists (T :: types), ss'. split; [now constructor|]. split.
        -- rewrite Hd. now rewrite <- (assoc_L (++)).
        -- split; [exact Hend|]. rewrite Hstr. stream_str.
           cbn [zip_with concatAll foldr]. now rewrite !str_app_assoc.
    + left. exists [], n, names, e. split; [reflexivity|].
      split; [constructor|]. split; [exact ET | reflexivity].
Qed.

Lemma scopeName_str (n : Z) :
  str (stringstream_new << "__tdf_" << show_unsigned n) = scopeName n.
Proof. stream_str. reflexivity. Qed.

(** The validation of the expression and the call, once the types of the
    used columns are known. *)
Lemma submitExpression_run (thisPtr : Z)
    (methodName interfaceTypeName name expression returnTypeName nsName : string)
    (used types : list string) (ss : stringstream) (w : World) :
  atEnd ss → str ss = EmptyString → length types ≤ length used →
  (validationStep nsName expression ss
   ≫= λ ss1, invocationStep methodName
        (buildInvocation thisPtr methodName interfaceTypeName name
           (str (buildLambda types used expression ss1)) returnTypeName used
           (negb (vector_empty used)) (buildLambda types used expression ss1))) w
  = submitExpression methodName (validationText nsName expression)
      (invocationText thisPtr methodName interfaceTypeName name
         (lambdaText types used expression) returnTypeName used) w.
Proof.
  intros Hss Hstr Hlen. rewrite bind_run. unfold validationStep. cbv zeta.
  rewrite bind_run. unfold gInterpreter_Declare.
  set (ss1 := ss << "namespace " << nsName << "{ auto res = " << expression
              << (";}" +:+ newline)).
  assert (H1 : atEnd ss1) by (unfold ss1; stream_at_end).
  assert (E1 : str ss1 = validationText nsName expression).
  { unfold ss1. stream_str. rewrite Hstr. unfold validationText.
    now rewrite !str_app_assoc. }
  rewrite !E1. unfold submitExpression.
  destruct (TInterpreter_Declare _ _) as [[|] interp]; cbn [negb mret M_ret throw].
  - destruct H1 as [Hf1 _].
    destruct (buildLambda_str types used expression ss1 Hf1 Hlen) as [El [Hfl _]].
    unfold invocationStep. rewrite bind_run. unfold gInterpreter_Calc.
    rewrite El, !(buildInvocation_str _ _ _ _ _ _ _ _ Hfl).
    unfold answered. cbn [gInterpreter].
    destruct (Calc _ _) as [[retVal code] interp'].
    unfold calcResult, invocationError.
    destruct (negb (kNoError =? code)%Z); cbn [orb throw mret M_ret].
    + now rewrite !str_app_assoc.
    + destruct (retVal =? 0)%Z; cbn [throw mret M_ret]; [|reflexivity].
      now rewrite !str_app_assoc, str_app_nil_r.
  - unfold validationError, answered. now rewrite str_app_assoc.
Qed.

(** An invocation either stops at the first used column whose type lookup
    throws, or submits the texts made from the types of the used
    columns. *)
Lemma JitTransformation_cases (thisPtr : Z)
    (methodName interfaceTypeName name expression : string)
    (branches : option (list string)) (customColumns : list string)
    (tmpBookedBranches : gmap string TCustomColumnBase) (tree : option TTree)
    (returnTypeName : string) (ds : option TDataSource) (w : World) :
  let used :=
    FindUsedColumnNames Regexp_Index expression branches customColumns
      (match ds with Some d => GetColumnNames d | None => [] end) in
  let nsName := scopeName (iNs w) in
  let typeOf := λ n, ColumnName2ColumnTypeName n tree (tmpBookedBranches !! n) ds in
  let run := JitTransformation thisPtr methodName interfaceTypeName name
               expression branches customColumns tmpBookedBranches tree
               returnTypeName ds w in
  (∃ before column after e,
      used = before ++ column :: after
      ∧ Forall (λ n, ∃ T, typeOf n = Ok T) before
      ∧ typeOf column = Throw e
      ∧ run = (Throw e, afterScope w))
  ∨ (∃ types,
        Forall2 (λ n T, typeOf n = Ok T) used types
        ∧ run
          = let valid := validationText nsName expression in
            let line :=
              invocationText thisPtr methodName interfaceTypeName name
                (lambdaText types used expression) returnTypeName used in
            if vector_empty used
            then submitExpression methodName valid line (afterScope w)
            else submitVariables methodName (declarationText nsName types used)
                   valid line (afterScope w)).
Proof.
  intros used nsName typeOf run. unfold run, JitTransformation. cbv zeta.
  fold used. rewrite bind_run. cbn [synthesizeScopeName].
  rewrite !scopeName_str. fold nsName.
  change {| iNs := (iNs w + 1) mod 2 ^ 32; gInterpreter := gInterpreter w;
            scopes := scopes w ++ [nsName]; submitted := submitted w |}
    with (afterScope w).
  set (ss0 := set_str _ EmptyString).
  assert (H0 : atEnd ss0).
  { apply atEnd_set_str.
    assert (Hend : atEnd (stringstream_new << "__tdf_" << show_unsigned (iNs w)))
      by stream_at_end.
    apply Hend. }
  assert (E0 : str ss0 = EmptyString) by reflexivity.
  rewrite bind_run.
  destruct (vector_empty used) eqn:Hempty; cbn [negb].
  - right. exists []. split.
    + destruct used; [constructor | discriminate].
    + cbn [mret M_ret]. cbv zeta.
      pose proof (submitExpression_run thisPtr methodName interfaceTypeName name
                    expression returnTypeName nsName used [] ss0 (afterScope w)
                    H0 E0) as Hrun.
      rewrite Hempty in Hrun. apply Hrun. cbn. lia.
  - unfold declarationStep. cbv zeta. rewrite bind_run. unfold liftResult.
    set (ssd := ss0 << "namespace " << nsName << (" {" +:+ newline)).
    assert (Hd0 : atEnd ssd) by (unfold ssd; stream_at_end).
    destruct (declareVariables_cases used tmpBookedBranches tree ds ssd [] Hd0)
      as [(before & column & after & e & Hu & Hb & He & Hd)
         |(types & ss' & Hres & Hd & Hend & Hstr)].
    + left. exists before, column, after, e.
      split; [exact Hu|]. split; [exact Hb|]. split; [exact He|].
      now rewrite Hd.
    + right. exists types. split; [exact Hres|]. cbv zeta.
      rewrite Hd. cbn [app]. rewrite bind_run. unfold gInterpreter_ProcessLine.
      assert (Ed : str (ss' << "}") = declarationText nsName types used).
      { stream_str. rewrite Hstr. unfold ssd. stream_str. rewrite E0.
        unfold declarationText. now rewrite !str_app_assoc. }
      rewrite !Ed. unfold submitVariables.
      destruct (ProcessLine _ _) as [code interp].
      destruct (kNoError =? code)%Z; cbn [negb throw mret M_ret].
      * pose proof (submitExpression_run thisPtr methodName interfaceTypeName
                      name expression returnTypeName nsName used types
                      (set_str (ss' << "}") EmptyString)) as Hrun.
        rewrite Hempty in Hrun. apply Hrun.
        -- apply atEnd_set_str.
           assert (Hend' : atEnd (ss' << "}")) by stream_at_end.
           apply Hend'.
        -- reflexivity.
        -- now rewrite (Forall2_length _ _ _ Hres).
      * unfold declarationError, answered. now rewrite !str_app_assoc.
Qed.
End Run_facts.

Section Shape_facts.
Context {FW : Framework} {IP : Interpreter}.

Lemma submitExpression_shape (methodName decl valid line : string)
    (needsVariables : bool) (w w0 : World) :
  submitted w = submitted w0 ++ acceptedVariables needsVariables decl →
  let run := submitExpression methodName valid line w in
  ∃ new, submitted run.2 = submitted w0 ++ new
         ∧ runShape methodName decl valid line needsVariables run.1 new.
Proof.
  intros Hw run. unfold run, submitExpression.
  destruct (TInterpreter_Declare _ _) as [[|] interp].
  - unfold answered at 1 2. cbn [gInterpreter].
    destruct (Calc _ _) as [[retVal code] interp']. cbn [fst snd].
    eexists. split; [|apply shape_call].
    unfold answered. cbn [submitted]. rewrite Hw, <- !(assoc_L (++)). reflexivity.
  - cbn [fst snd]. eexists. split; [|apply shape_validation].
    unfold answered. cbn [submitted]. rewrite Hw, <- !(assoc_L (++)). reflexivity.
Qed.

Lemma submitVariables_shape (methodName decl valid line : string) (w : World) :
  let run := submitVariables methodName decl valid line w in
  ∃ new, submitted run.2 = submitted w ++ new
         ∧ runShape methodName decl valid line true run.1 new.
Proof.
  intros run. unfold run, submitVariables.
  destruct (ProcessLine _ _) as [code interp].
  destruct (Z.eqb_spec kNoError code) as [<-|Hne].
  - apply submitExpression_shape. reflexivity.
  - cbn [fst snd]. eexists. split; [reflexivity|].
    apply shape_declaration; [reflexivity | congruence].
Qed.

(** An invocation stops at the first used column whose type lookup
    throws, or has the shape given by the types of its used columns. *)
Lemma invoke_shape (c : JitCall) (w : World) :
  (∃ before column after e,
      usedColumns c = before ++ column :: after
      ∧ Forall (λ n, ∃ T, columnType c n = Ok T) before
      ∧ columnType c column = Throw e
      ∧ invoke c w = (Throw e, afterScope w))
  ∨ (∃ types new,
        Forall2 (λ n T, columnType c n = Ok T) (usedColumns c) types
        ∧ submitted (invoke c w).2 = submitted w ++ new
        ∧ runShape (call_methodName c)
            (declarationOf c (scopeName (iNs w)) types)
            (validationOf c (scopeName (iNs w))) (invocationOf c types)
            (negb (vector_empty (usedColumns c))) (invoke c w).1 new).
Proof.
  destruct (JitTransformation_cases (call_thisPtr c) (call_methodName c)
              (call_interfaceTypeName c) (call_name c) (call_expression c)
              (call_branches c) (call_customColumns c) (call_tmpBookedBranches c)
              (call_tree c) (call_returnTypeName c) (call_ds c) w)
    as [(before & column & after & e & Hu & Hb & He & Hrun)
       |(types & Hres & Hrun)].
  - left. now exists before, column, after, e.
  - right. exists types. cbv zeta in Hrun.
    change (JitTransformation _ _ _ _ _ _ _ _ _ _ _ w) with (invoke c w) in Hrun.
    fold (usedColumns c) in Hrun.
    fold (invocationOf c types) (validationOf c (scopeName (iNs w)))
         (declarationOf c (scopeName (iNs w)) types) in Hrun.
    rewrite Hrun. destruct (vector_empty (usedColumns c)); cbn [negb].
    + destruct (submitExpression_shape (call_methodName c)
                  (declarationOf c (scopeName (iNs w)) types)
                  (validationOf c (scopeName (iNs w))) (invocationOf c types)
                  false (afterScope w) w) as (new & Hs & Hshape).
      * cbn. now rewrite app_nil_r.
      * now exists new.
    + destruct (submitVariables_shape (call_methodName c)
                  (declarationOf c (scopeName (iNs w)) types)
                  (validationOf c (scopeName (iNs w))) (invocationOf c types)
                  (afterScope w)) as (new & Hs & Hshape).
      now exists new.
Qed.

Lemma resolved_types_unique (c : JitCall) (names types types' : list string) :
  Forall2 (λ n T, columnType c n = Ok T) names types →
  Forall2 (λ n T, columnType c n = Ok T) names types' →
  types = types'.
Proof.
  intros H1. revert types'. induction H1 as [|n T names types Hn _ IH];
    intros types' H2; inversion H2 as [|n' T' names' types'' Hn' H2']; subst.
  - reflexivity.
  - f_equal; [congruence | now apply IH].
Qed.

Lemma first_throw_unique (c : JitCall) (before after before' after' : list string)
    (column column' : string) (e e' : exception) :
  before ++ column :: after = before' ++ column' :: after' →
  Forall (λ n, ∃ T, columnType c n = Ok T) before → columnType c column = Throw e →
  Forall (λ n, ∃ T, columnType c n = Ok T) before' → columnType c column' = Throw e' →
  e = e'.
Proof.
  revert before'. induction before as [|x before IH]; intros before' Heq Hb He Hb' He'.
  - destruct before' as [|x' before'']; cbn in Heq; injection Heq as -> Hrest.
    + congruence.
    + apply Forall_cons in Hb' as [(T & HT) _]. congruence.
  - destruct before' as [|x' before'']; cbn in Heq; injection Heq as -> Hrest.
    + apply Forall_cons in Hb as [(T & HT) _]. congruence.
    + apply Forall_cons in Hb as [_ Hb]. apply Forall_cons in Hb' as [_ Hb'].
      now apply (IH before'').
Qed.

Lemma resolved_no_throw (c : JitCall) (before after types : list string)
    (column : string) (e : exception) :
  Forall2 (λ n T, columnType c n = Ok T) (before ++ column :: after) types →
  columnType c column = Throw e → False.
Proof.
  intros Hres He. apply Forall2_app_inv_l in Hres as (t1 & t2 & _ & H2 & _).
  inversion H2; subst. congruence.
Qed.
End Shape_facts.

(** Splits the membership of a submission in a short list into cases. *)
Ltac submission_cases :=
  repeat match goal with
    | H : _ ∈ _ ++ _ |- _ => apply elem_of_app in H as [H|H]
    | H : _ ∈ _ :: _ |- _ => apply elem_of_cons in H as [H|H]
    | H : _ ∈ [] |- _ => now apply elem_of_nil in H
    | H : SubmittedProcessLine _ _ = _ |- _ => first [discriminate H | injection H as -> ->]
    | H : SubmittedDeclare _ _ = _ |- _ => first [discriminate H | injection H as -> ->]
    | H : SubmittedCalc _ _ _ = _ |- _ => first [discriminate H | injection H as -> -> ->]
    end.

Section Invocation_theorems.
Context {FW : Framework} {IP : Interpreter}.

Lemma calcResult_Ok (methodName line : string) (retVal code v : Z) :
  calcResult methodName line retVal code = Ok v
  ↔ v = retVal ∧ code = kNoError ∧ retVal ≠ 0%Z.
Proof.
  unfold calcResult.
  destruct (Z.eqb_spec kNoError code) as [E|E],
           (Z.eqb_spec retVal 0) as [E0|E0]; cbn [negb orb]; split;
    try discriminate; try (intros (_ & ? & ?); congruence).
  - intros [= <-]. auto.
  - intros (-> & _ & _). reflexivity.
Qed.

Lemma runShape_cases (methodName decl valid line : string) (needsVariables : bool)
    (r : result Z) (new : list submission) :
  runShape methodName decl valid line needsVariables r new →
  (∃ code, needsVariables = true ∧ code ≠ kNoError
           ∧ r = Throw (runtime_error (declarationError decl code))
           ∧ new = [SubmittedProcessLine decl code])
  ∨ (r = Throw (runtime_error (validationError valid))
     ∧ new = acceptedVariables needsVariables decl ++ [SubmittedDeclare valid false])
  ∨ (∃ retVal code,
        r = calcResult methodName line retVal code
        ∧ new = acceptedVariables needsVariables decl
                ++ [SubmittedDeclare valid true; SubmittedCalc line retVal code]).
Proof.
  destruct 1 as [code Hb Hcode| |retVal code].
  - left. now exists code.
  - right. left. now split.
  - right. right. now exists retVal, code.
Qed.
End Invocation_theorems.

(** X11: every invocation, whatever its arguments and whether it returns
    or throws, synthesizes the scope name of the current counter and
    leaves the counter incremented and inside the range of an unsigned
    int. *)
Theorem invoke_scope_consumed {FW : Framework} {IP : Interpreter}
    (c : JitCall) (w : World) :
  iNs (invoke c w).2 = ((iNs w + 1) mod 2 ^ 32)%Z
  ∧ (0 ≤ iNs (invoke c w).2 < 2 ^ 32)%Z
  ∧ scopes (invoke c w).2 = scopes w ++ [scopeName (iNs w)].
Proof.
  destruct (invoke_counter c w) as [E1 E2]. rewrite E1, E2.
  split; [reflexivity|]. split; [|reflexivity].
  apply Z.mod_pos_bound. lia.
Qed.

(** X12: when the lookup of the type of a used column throws, and the
    columns before it have a type, the invocation throws that exception;
    nothing is submitted to the interpreter and its state is unchanged. *)
Theorem invoke_type_lookup_throws {FW : Framework} {IP : Interpreter}
    (c : JitCall) (w : World) (before after : list string) (column : string)
    (e : exception) :
  usedColumns c = before ++ column :: after →
  Forall (λ n, ∃ T, columnType c n = Ok T) before →
  columnType c column = Throw e →
  (invoke c w).1 = Throw e
  ∧ submitted (invoke c w).2 = submitted w
  ∧ gInterpreter (invoke c w).2 = gInterpreter w.
Proof.
  intros Hu Hb He.
  destruct (invoke_shape c w)
    as [(before' & column' & after' & e' & Hu' & Hb' & He' & Hrun)
       |(types & new & Hres & _)].
  - rewrite Hu in Hu'.
    rewrite (first_throw_unique c _ _ _ _ _ _ _ _ Hu' Hb He Hb' He').
    rewrite Hrun. repeat split.
  - exfalso. rewrite Hu in Hres. eapply resolved_no_throw; eauto.
Qed.

Lemma invoke_type_lookup_throws_witness :
  let c := partialCall "x > y" in
  let w := initialWorld (IP := sampleInterpreter) ([] : list string) in
  usedColumns c = ["x"] ++ "y" :: []
  ∧ Forall (λ n, ∃ T, columnType c n = Ok T) ["x"]
  ∧ columnType c "y" = Throw (runtime_error "unknown column")
  ∧ (invoke c w).1 = Throw (runtime_error "unknown column")
  ∧ submitted (invoke c w).2 = submitted w
  ∧ gInterpreter (invoke c w).2 = gInterpreter w.
Proof.
  intros c w.
  assert (Hu : usedColumns c = ["x"] ++ "y" :: []) by (vm_compute; reflexivity).
  assert (Hb : Forall (λ n, ∃ T, columnType c n = Ok T) ["x"]).
  { repeat constructor. exists "double". reflexivity. }
  assert (He : columnType c "y" = Throw (runtime_error "unknown column"))
    by reflexivity.
  split; [exact Hu|]. split; [exact Hb|]. split; [exact He|].
  exact (invoke_type_lookup_throws c w ["x"] [] "y" _ Hu Hb He).
Defined.

(** X13: when the used columns have types and there is at least one, the
    first submission is the declaration, through ProcessLine, of one
    variable per used column with its type, in the scope of the current
    counter; a type name is not checked for being empty.  If the answer
    is an error code, nothing else is submitted and the error carries the
    declaration and the code. *)
Theorem invoke_declares_variables {FW : Framework} {IP : Interpreter}
    (c : JitCall) (w : World) (types : list string) :
  Forall2 (λ n T, columnType c n = Ok T) (usedColumns c) types →
  usedColumns c ≠ [] →
  ∃ code rest,
    submitted (invoke c w).2
    = submitted w
      ++ SubmittedProcessLine (declarationOf c (scopeName (iNs w)) types) code
         :: rest
    ∧ (code ≠ kNoError →
       rest = []
       ∧ (invoke c w).1
         = Throw (runtime_error
                    (declarationError
                       (declarationOf c (scopeName (iNs w)) types) code))).
Proof.
  intros Hres Hne.
  destruct (invoke_shape c w)
    as [(before & column & after & e & Hu & _ & He & _)
       |(types' & new & Hres' & Hs & Hshape)].
  - exfalso. rewrite Hu in Hres. eapply resolved_no_throw; eauto.
  - rewrite <- (resolved_types_unique c _ _ _ Hres Hres') in Hshape.
    assert (Hv : vector_empty (usedColumns c) = false)
      by (destruct (usedColumns c); [congruence | reflexivity]).
    rewrite Hv in Hshape. cbn [negb] in Hshape. rewrite Hs.
    inversion Hshape as [code _ Hcode Hr Hn| Hr Hn |retVal code Hr Hn];
      cbn [acceptedVariables app].
    + exists code, []. split; [reflexivity|]. intros _. now split.
    + eexists kNoError, _. split; [reflexivity|]. congruence.
    + eexists kNoError, _. split; [reflexivity|]. congruence.
Qed.

Lemma invoke_declares_variables_witness :
  let c := sampleCall "x > 0" in
  Forall2 (λ n T, columnType c n = Ok T) (usedColumns c) ["double"]
  ∧ usedColumns c ≠ []
  ∧ ∃ code rest,
      submitted (invoke (IP := sampleInterpreter) c sampleWorld).2
      = submitted sampleWorld
        ++ SubmittedProcessLine (declarationOf c (scopeName (iNs sampleWorld)) ["double"]) code
           :: rest
      ∧ (code ≠ kNoError (Interpreter := sampleInterpreter) →
         rest = []
         ∧ (invoke (IP := sampleInterpreter) c sampleWorld).1
           = Throw (runtime_error
                      (declarationError
                         (declarationOf c (scopeName (iNs sampleWorld)) ["double"])
                         code))).
Proof.
  intros c.
  assert (Hres : Forall2 (λ n T, columnType c n = Ok T) (usedColumns c) ["double"]).
  { change (usedColumns c) with ["x"]. repeat constructor. }
  assert (Hne : usedColumns c ≠ []) by (change (usedColumns c) with ["x"]; discriminate).
  split; [exact Hres|]. split; [exact Hne|].
  exact (invoke_declares_variables (IP := sampleInterpreter) c sampleWorld
           ["double"] Hres Hne).
Defined.

(** X14: whatever the invocation submits through Declare is the
    declaration of the expression alone, as the initializer of a variable
    res, in the scope of the current counter; when it is refused the
    invocation throws the error that carries this text. *)
Theorem invoke_validation_text {FW : Framework} {IP : Interpreter}
    (c : JitCall) (w : World) :
  ∃ new,
    submitted (invoke c w).2 = submitted w ++ new
    ∧ ∀ src ok,
        SubmittedDeclare src ok ∈ new →
        src = "namespace " +:+ scopeName (iNs w) +:+ "{ auto res = "
              +:+ call_expression c +:+ ";}" +:+ newline
        ∧ (ok = false →
           (invoke c w).1
           = Throw (runtime_error ("Cannot interpret this expression:  " +:+ src))).
Proof.
  destruct (invoke_shape c w)
    as [(before & column & after & e & _ & _ & _ & Hrun)
       |(types & new & _ & Hs & Hshape)].
  - exists []. rewrite Hrun. split; [cbn; now rewrite app_nil_r|].
    intros src ok Hin. now apply elem_of_nil in Hin.
  - exists new. split; [exact Hs|]. intros src ok Hin.
    destruct (runShape_cases _ _ _ _ _ _ _ Hshape)
      as [(code & Hb & Hcode & Hr & ->)|[(Hr & ->)|(retVal & code & Hr & ->)]];
      unfold acceptedVariables in Hin;
      destruct (negb (vector_empty (usedColumns c)));
      submission_cases; (split; [reflexivity|]); intros Hok;
      first [discriminate Hok | exact Hr].
Qed.

(** X15: when the used columns have types, whatever the invocation
    submits through Calc is the call whose lambda takes these types, one
    per used column and in their order, and whose list holds the used
    column names. *)
Theorem invoke_call_text {FW : Framework} {IP : Interpreter}
    (c : JitCall) (w : World) (types : list string) :
  Forall2 (λ n T, columnType c n = Ok T) (usedColumns c) types →
  ∃ new,
    submitted (invoke c w).2 = submitted w ++ new
    ∧ ∀ line retVal code,
        SubmittedCalc line retVal code ∈ new →
        line = invocationText (call_thisPtr c) (call_methodName c)
                 (call_interfaceTypeName c) (call_name c)
                 (lambdaText types (usedColumns c) (call_expression c))
                 (call_returnTypeName c) (usedColumns c).
Proof.
  intros Hres.
  destruct (invoke_shape c w)
    as [(before & column & after & e & Hu & _ & He & _)
       |(types' & new & Hres' & Hs & Hshape)].
  - exfalso. rewrite Hu in Hres. eapply resolved_no_throw; eauto.
  - rewrite <- (resolved_types_unique c _ _ _ Hres Hres') in Hshape.
    exists new. split; [exact Hs|]. intros line retVal code Hin.
    destruct (runShape_cases _ _ _ _ _ _ _ Hshape)
      as [(code' & Hb & Hcode & Hr & ->)|[(Hr & ->)|(retVal' & code' & Hr & ->)]];
      unfold acceptedVariables in Hin;
      destruct (negb (vector_empty (usedColumns c)));
      submission_cases; reflexivity.
Qed.

Lemma invoke_call_text_witness :
  let c := sampleCall "x > 0 && y < x" in
  Forall2 (λ n T, columnType c n = Ok T) (usedColumns c) ["double"; "double"]
  ∧ ∃ new,
      submitted (invoke (IP := sampleInterpreter) c sampleWorld).2
      = submitted sampleWorld ++ new
      ∧ ∀ line retVal code,
          SubmittedCalc line retVal code ∈ new →
          line = invocationText (FW := sampleFramework) (call_thisPtr c)
                   (call_methodName c) (call_interfaceTypeName c) (call_name c)
                   (lambdaText ["double"; "double"] (usedColumns c) (call_expression c))
                   (call_returnTypeName c) (usedColumns c).
Proof.
  intros c.
  assert (Hres : Forall2 (λ n T, columnType c n = Ok T) (usedColumns c)
                   ["double"; "double"]).
  { change (usedColumns c) with ["x"; "y"]. repeat constructor. }
  split; [exact Hres|].
  exact (invoke_call_text (IP := sampleInterpreter) c sampleWorld
           ["double"; "double"] Hres).
Defined.

(** X16: the answer to the call decides the result: the invocation
    returns the value of the call when the error code is kNoError and the
    value is not null, and otherwise throws the error that carries the
    call, with the error code only when it is not kNoError.  So a
    returned value is never null and always is the value of a submitted
    call. *)
Theorem invoke_result {FW : Framework} {IP : Interpreter}
    (c : JitCall) (w : World) :
  ∃ new,
    submitted (invoke c w).2 = submitted w ++ new
    ∧ (∀ line retVal code,
         SubmittedCalc line retVal code ∈ new →
         (invoke c w).1
         = if negb (kNoError =? code)%Z || (retVal =? 0)%Z
           then Throw (runtime_error
                         ("Cannot interpret the invocation to "
                          +:+ call_methodName c +:+ ":  " +:+ line
                          +:+ (if negb (kNoError =? code)%Z
                               then newline +:+ "Interpreter error code is "
                                    +:+ show_int code +:+ "."
                               else EmptyString)))
           else Ok retVal)
    ∧ (∀ v, (invoke c w).1 = Ok v →
            v ≠ 0%Z ∧ ∃ line, SubmittedCalc line v kNoError ∈ new).
Proof.
  destruct (invoke_shape c w)
    as [(before & column & after & e & _ & _ & _ & Hrun)
       |(types & new & _ & Hs & Hshape)].
  - exists []. rewrite Hrun. split; [cbn; now rewrite app_nil_r|]. split.
    + intros line retVal code Hin. now apply elem_of_nil in Hin.
    + intros v Hv. discriminate.
  - exists new. split; [exact Hs|].
    destruct (runShape_cases _ _ _ _ _ _ _ Hshape)
      as [(code & Hb & Hcode & Hr & ->)|[(Hr & ->)|(retVal & code & Hr & ->)]];
      split.
    + intros line v k Hin. submission_cases.
    + intros v Hv. rewrite Hr in Hv. discriminate.
    + intros line v k Hin. exfalso. unfold acceptedVariables in Hin.
      destruct (negb (vector_empty (usedColumns c))); submission_cases.
    + intros v Hv. rewrite Hr in Hv. discriminate.
    + intros line v k Hin. unfold acceptedVariables in Hin.
      destruct (negb (vector_empty (usedColumns c))); submission_cases;
        exact Hr.
    + intros v Hv. rewrite Hr in Hv.
      apply calcResult_Ok in Hv as (-> & -> & Hnz). split; [exact Hnz|].
      exists (invocationOf c types). apply elem_of_app. right.
      apply elem_of_cons. right. apply elem_of_cons. now left.
Qed.

(** X17: an invocation makes at most three submissions; a call is
    submitted only after the expression was accepted, and the expression
    only after the variables, if any were submitted, were accepted; and
    variables are submitted only when the expression uses a column. *)
Theorem invoke_order {FW : Framework} {IP : Interpreter}
    (c : JitCall) (w : World) :
  ∃ new,
    submitted (invoke c w).2 = submitted w ++ new
    ∧ length new ≤ 3
    ∧ (∀ line retVal code,
         SubmittedCalc line retVal code ∈ new →
         ∃ src, new !! (length new - 2) = Some (SubmittedDeclare src true)
                ∧ new !! (length new - 1) = Some (SubmittedCalc line retVal code))
    ∧ (∀ src ok line code,
         SubmittedDeclare src ok ∈ new → SubmittedProcessLine line code ∈ new →
         code = kNoError ∧ new !! 0 = Some (SubmittedProcessLine line code)
         ∧ new !! 1 = Some (SubmittedDeclare src ok))
    ∧ (∀ line code, SubmittedProcessLine line code ∈ new → usedColumns c ≠ []).
Proof.
  destruct (invoke_shape c w)
    as [(before & column & after & e & _ & _ & _ & Hrun)
       |(types & new & _ & Hs & Hshape)].
  - exists []. rewrite Hrun. split; [cbn; now rewrite app_nil_r|].
    split; [cbn; lia|].
    repeat split; intros; exfalso; eapply not_elem_of_nil; eauto.
  - exists new. split; [exact Hs|].
    assert (Hv : negb (vector_empty (usedColumns c)) = true → usedColumns c ≠ []).
    { destruct (usedColumns c); [discriminate | intros _; discriminate]. }
    destruct (runShape_cases _ _ _ _ _ _ _ Hshape)
      as [(code & Hb & Hcode & Hr & ->)|[(Hr & ->)|(retVal & code & Hr & ->)]];
      unfold acceptedVariables;
      destruct (negb (vector_empty (usedColumns c))); try discriminate;
      cbn [app length]; (split; [lia|]);
      repeat split; intros; submission_cases;
      try reflexivity; try (now apply Hv); eauto.
Qed.
